(** * KES: the in-memory key store and the policy API handlers

    A shallow embedding of two parts of the key encryption service:

    - package [mem], the in-memory key-value store with its iterator
      (module [Mem]);
    - the policy routes of package [http] (file [policy-api.go]):
      describe, assign, read, write, delete and list (module [PolicyAPI]).

    Go maps are finite maps ([gmap]) with an explicit nil map, strings are
    [string], errors are values of small inductive types, and the handlers
    run in a state monad over the response writer and the log of calls made
    on the enclave. *)

From stdpp Require Import gmap strings list fin_maps.
From Stdlib Require Import ZArith.

Open Scope string_scope.
Open Scope list_scope.

(** ** Package mem *)

Module Mem.

(** A Go call either returns or panics. Only a write to a nil map can panic
    in this package. *)
Inductive outcome (A : Type) : Type :=
| Done (a : A)
| Panic.
Arguments Done {A} a.
Arguments Panic {A}.

(** The two errors of package kes the store returns; a nil error is [None]. *)
Inductive kesError : Type :=
| ErrKeyExists
| ErrKeyNotFound.

(** key.StoreState, with the two states a store reports. *)
Inductive StoreStatus : Type :=
| StoreAvailable
| StoreUnreachable.

Record StoreState : Type := mkStoreState {
  State : StoreStatus;
  Latency : Z
}.

Section WithKey.

(** key.Key is declared outside this package: the store only moves keys
    around, so the type and its zero value [key.Key{}] are parameters. *)
Context {Key : Type} (zeroKey : Key).

(** *** Go maps of type map[string]key.Key

    [None] is the nil map. Reading, deleting from, measuring and ranging over
    a nil map behave as on an empty map; assigning to it panics. *)
Definition gomap : Type := option (gmap string Key).

Definition contents (m : gomap) : gmap string Key :=
  match m with
  | None => ∅
  | Some g => g
  end.

(** [k, ok := m[name]] *)
Definition map_index (m : gomap) (name : string) : option Key :=
  contents m !! name.

(** [m[name] = k] *)
Definition map_assign (m : gomap) (name : string) (k : Key) : outcome gomap :=
  match m with
  | None => Panic
  | Some g => Done (Some (<[name := k]> g))
  end.

(** [delete(m, name)] *)
Definition map_delete (m : gomap) (name : string) : gomap :=
  match m with
  | None => None
  | Some g => Some (delete name g)
  end.

(** [len(m)] *)
Definition map_len (m : gomap) : nat := size (contents m).

(** The order in which [for name := range m] visits the keys is not
    specified by the language: every key is visited once, in an order the
    runtime picks. A [RangeOrder] is one such pick. *)
Record RangeOrder : Type := mkRangeOrder {
  range_keys : gmap string Key → list string;
  range_keys_perm : ∀ g, range_keys g ≡ₚ elements (dom g)
}.

Definition sorted_order : RangeOrder :=
  {| range_keys := λ g, elements (dom g);
     range_keys_perm := λ g, reflexivity _ |}.

Definition map_range (ρ : RangeOrder) (m : gomap) : list string :=
  range_keys ρ (contents m).

(** *** The store

    Every method holds the lock of the store for its whole body, so a method
    is one atomic step on the map; the lock itself is not part of the
    state. *)
Record Store : Type := mkStore {
  store : gomap
}.

(** The zero value [Store{}]. *)
Definition zeroStore : Store := {| store := None |}.

Definition Status (s : Store) : StoreState * option kesError :=
  ({| State := StoreAvailable; Latency := 0 |}, None).

Definition Create (s : Store) (name : string) (k : Key)
  : outcome (Store * option kesError) :=
  let s1 :=
    match store s with
    | None => {| store := Some ∅ |}
    | Some _ => s
    end in
  match map_index (store s1) name with
  | Some _ => Done (s1, Some ErrKeyExists)
  | None =>
      match map_assign (store s1) name k with
      | Done m => Done ({| store := m |}, None)
      | Panic => Panic
      end
  end.

Definition Delete (s : Store) (name : string) : Store * option kesError :=
  ({| store := map_delete (store s) name |}, None).

Definition Get (s : Store) (name : string) : Key * option kesError :=
  match map_index (store s) name with
  | None => (zeroKey, Some ErrKeyNotFound)
  | Some k => (k, None)
  end.

(** *** The iterator *)
Record iterator : Type := mkIterator {
  values : list string;
  last : string
}.

Definition List (ρ : RangeOrder) (s : Store) : iterator * option kesError :=
  let names :=
    foldl (λ (names : list string) name, names ++ [name]) []
      (map_range ρ (store s)) in
  ({| values := names; last := EmptyString |}, None).

Definition Next (i : iterator) : bool * iterator :=
  match values i with
  | v :: rest => (true, {| values := rest; last := v |})
  | [] => (false, i)
  end.

Definition Name (i : iterator) : string := last i.

Definition Err (i : iterator) : option kesError := None.

(** [k] calls of [Next] in a row; the iterator they leave. *)
Fixpoint advance (k : nat) (i : iterator) : iterator :=
  match k with
  | O => i
  | S k => advance k (Next i).2
  end.

(** *** Histories of calls

    A client drives the store with a sequence of calls; each call leaves an
    event carrying what it returned. *)
Inductive Op : Type :=
| OpStatus
| OpCreate (name : string) (k : Key)
| OpDelete (name : string)
| OpGet (name : string)
| OpList (ρ : RangeOrder).

Inductive Event : Type :=
| EvStatus (st : StoreState) (err : option kesError)
| EvCreate (name : string) (k : Key) (err : option kesError)
| EvDelete (name : string) (err : option kesError)
| EvGet (name : string) (k : Key) (err : option kesError)
| EvList (it : iterator) (err : option kesError).

Definition exec (s : Store) (op : Op) : outcome (Store * Event) :=
  match op with
  | OpStatus => let '(st, err) := Status s in Done (s, EvStatus st err)
  | OpCreate name k =>
      match Create s name k with
      | Done (s', err) => Done (s', EvCreate name k err)
      | Panic => Panic
      end
  | OpDelete name =>
      let '(s', err) := Delete s name in Done (s', EvDelete name err)
  | OpGet name => let '(k, err) := Get s name in Done (s, EvGet name k err)
  | OpList ρ => let '(it, err) := List ρ s in Done (s, EvList it err)
  end.

Fixpoint run (s : Store) (ops : list Op) : outcome (Store * list Event) :=
  match ops with
  | [] => Done (s, [])
  | op :: rest =>
      match exec s op with
      | Done (s', ev) =>
          match run s' rest with
          | Done (s'', evs) => Done (s'', ev :: evs)
          | Panic => Panic
          end
      | Panic => Panic
      end
  end.

(** The event is a successful [Create(name, _)] or a [Delete(name)]. *)
Definition touches (name : string) (ev : Event) : Prop :=
  match ev with
  | EvCreate n _ None => n = name
  | EvDelete n _ => n = name
  | _ => False
  end.

#[global] Instance touches_dec name ev : Decision (touches name ev).
Proof. destruct ev as [| n k [e|] | n e | |]; simpl; apply _. Defined.

(** [k] is the key of the most recent successful [Create(name, k)] of the
    history, and no [Delete(name)] follows it. *)
Definition last_create (name : string) (k : Key) (evs : list Event) : Prop :=
  ∃ before after,
    evs = before ++ EvCreate name k None :: after ∧
    Forall (λ ev, ¬ touches name ev) after.

(** The same, computed along the history from an initial entry. *)
Definition track_event (name : string) (acc : option Key) (ev : Event)
  : option Key :=
  match ev with
  | EvCreate n k None => if decide (n = name) then Some k else acc
  | EvDelete n _ => if decide (n = name) then None else acc
  | _ => acc
  end.

Definition track (name : string) (init : option Key) (evs : list Event)
  : option Key :=
  foldl (track_event name) init evs.

(** *** An iterator in use while the store changes

    After [List] the client calls [Next] on the iterator, and the store takes
    further [Create] and [Delete] calls in between. Each [Next] is recorded
    with the name it yields, [None] when it returns false. *)
Inductive Step : Type :=
| DoCreate (name : string) (k : Key)
| DoDelete (name : string)
| DoNext.

Fixpoint interleave (s : Store) (i : iterator) (steps : list Step)
  : outcome (Store * iterator * list (option string)) :=
  match steps with
  | [] => Done (s, i, [])
  | DoCreate name k :: rest =>
      match Create s name k with
      | Done (s', _) => interleave s' i rest
      | Panic => Panic
      end
  | DoDelete name :: rest => interleave (Delete s name).1 i rest
  | DoNext :: rest =>
      let '(ok, i') := Next i in
      match interleave s i' rest with
      | Done (s', i'', outs) =>
          Done (s', i'', (if ok then Some (Name i') else None) :: outs)
      | Panic => Panic
      end
  end.

(** The number of [Next] calls among the steps. *)
Fixpoint nexts (steps : list Step) : nat :=
  match steps with
  | [] => 0
  | DoNext :: rest => S (nexts rest)
  | _ :: rest => nexts rest
  end.

End WithKey.

End Mem.

(** ** Package http: the policy API *)

Module PolicyAPI.

(** *** Values *)

(** kes.Identity *)
Definition Identity : Type := string.

(** An error as the handlers use it: the HTTP status and the message that
    [Error] sends for it. [NewError] is kes.NewError; [errMessage] is the
    text of [err.Error()]. *)
Record error : Type := NewError {
  errStatus : Z;
  errMessage : string
}.

(** A Go result [(v, err)]. *)
Inductive result (A : Type) : Type :=
| Ok (a : A)
| Fail (err : error).
Arguments Ok {A} a.
Arguments Fail {A} err.

(** Constants of net/http and time. *)
Definition MethodGet : string := "GET".
Definition MethodPost : string := "POST".
Definition MethodDelete : string := "DELETE".
Definition StatusOK : Z := 200.
Definition StatusBadRequest : Z := 400.
Definition StatusForbidden : Z := 403.
Definition StatusMethodNotAllowed : Z := 405.
Definition StatusInternalServerError : Z := 500.
Definition Second : Z := 1000000000.

(** Modelled from the spec: errMethodNotAllowed, declared in another file
    of package http; the method check rejects "with 405 on mismatch". *)
Definition errMethodNotAllowed : error :=
  NewError StatusMethodNotAllowed "method not allowed".

(** auth.Policy, with the fields the handlers read and write; a time.Time is
    a number. *)
Record Policy : Type := mkPolicy {
  Allow : list string;
  Deny : list string;
  CreatedAt : Z;
  CreatedBy : Identity
}.

(** The iterator [ListPolicies] returns: the names [Next] and [Name] yield
    in turn, and what [Close] returns. *)
Record PolicyIterator : Type := mkPolicyIterator {
  iterNames : list string;
  iterClose : option error
}.

(** A request: method, [r.URL.Path], the bytes of the body, the identity
    of the certificate in [r.TLS] and the headers. *)
Record Request : Type := mkRequest {
  Method : string;
  URLPath : string;
  Body : string;
  Peer : Identity;
  Headers : list (string * string)
}.

Definition withPath (r : Request) (path : string) : Request :=
  {| Method := Method r; URLPath := path; Body := Body r;
     Peer := Peer r; Headers := Headers r |}.

Definition withPeer (r : Request) (id : Identity) : Request :=
  {| Method := Method r; URLPath := URLPath r; Body := Body r;
     Peer := id; Headers := Headers r |}.

(** Modelled from the spec: auth.Identify, of package auth; the identity of
    a request is derived from the certificate of its TLS peer, which the
    proxy middleware replaces by the forwarded one. *)
Definition Identify (r : Request) : Identity := Peer r.

(** The enclave a request targets, as the results of its methods. *)
Record Enclave : Type := mkEnclave {
  VerifyRequest : Request → option error;
  GetPolicy : string → result Policy;
  SetPolicy : string → Policy → option error;
  DeletePolicy : string → option error;
  AssignPolicy : string → Identity → option error;
  ListPolicies : result PolicyIterator
}.

(** The calls a handler makes on the enclave, in order. *)
Inductive Call : Type :=
| CVerifyRequest (r : Request)
| CGetPolicy (name : string)
| CSetPolicy (name : string) (p : Policy)
| CDeletePolicy (name : string)
| CAssignPolicy (name : string) (id : Identity)
| CListPolicies.

(** *** The response writer *)

(** The JSON values the handlers encode: the [Response] struct of
    describePolicy, of readPolicy and of listPolicy. *)
Record ListResponse : Type := mkListResponse {
  lrName : string;
  lrCreatedAt : Z;
  lrCreatedBy : Identity;
  lrErr : string
}.

Inductive Chunk : Type :=
| ErrorBody (msg : string)
| DescribeBody (createdAt : Z) (createdBy : Identity)
| ReadBody (allow deny : list string) (createdAt : Z) (createdBy : Identity)
| ListBody (resp : ListResponse).

(** What has been sent so far. [writesLeft] is the number of writes the
    connection still accepts, [None] for a connection that stays up. *)
Record ResponseWriter : Type := mkResponseWriter {
  header : list (string * string);
  status : option Z;
  body : list Chunk;
  writesLeft : option nat
}.

Definition newResponseWriter : ResponseWriter :=
  {| header := []; status := None; body := []; writesLeft := None |}.

(** [w.Header().Set(key, value)] *)
Definition setHeader (w : ResponseWriter) (key value : string)
  : ResponseWriter :=
  {| header :=
       (key, value) ::
       List.filter (λ kv, negb (String.eqb (fst kv) key)) (header w);
     status := status w; body := body w; writesLeft := writesLeft w |}.

(** [w.WriteHeader(code)]: the first status sent stands. *)
Definition WriteHeader (w : ResponseWriter) (code : Z) : ResponseWriter :=
  match status w with
  | Some _ => w
  | None =>
      {| header := header w; status := Some code; body := body w;
         writesLeft := writesLeft w |}
  end.

(** The error of a write on a closed connection; the handlers only compare
    it with nil. *)
Definition errWrite : error :=
  NewError StatusInternalServerError "write failed".

(** One write of an encoded value; a first write sends status 200. *)
Definition write (w : ResponseWriter) (ch : Chunk)
  : ResponseWriter * option error :=
  match writesLeft w with
  | Some O => (w, Some errWrite)
  | remaining =>
      let w := WriteHeader w StatusOK in
      ({| header := header w; status := status w; body := body w ++ [ch];
          writesLeft := pred <$> remaining |}, None)
  end.

(** Modelled from the spec: [Error], declared in another file of package
    http; every error "maps to a stable HTTP status", sent with its
    message. *)
Definition Error (w : ResponseWriter) (err : error) : ResponseWriter :=
  let w := setHeader w "Content-Type" "application/json" in
  let w := WriteHeader w (errStatus err) in
  (write w (ErrorBody (errMessage err))).1.

(** *** The handler monad

    A handler threads the response writer and the log of enclave calls, and
    may return at any point: [None] is "the handler has returned". *)
Record Conn : Type := mkConn {
  rw : ResponseWriter;
  calls : list Call
}.

Definition newConn : Conn := {| rw := newResponseWriter; calls := [] |}.

Definition Act (A : Type) : Type := Conn → Conn * option A.

#[global] Instance Act_ret : MRet Act := λ A a c, (c, Some a).

#[global] Instance Act_bind : MBind Act := λ A B f m c,
  match m c with
  | (c', Some a) => f a c'
  | (c', None) => (c', None)
  end.

(** [return] *)
Definition leave {A : Type} : Act A := λ c, (c, None).

Definition onWriter (f : ResponseWriter → ResponseWriter) : Act unit :=
  λ c, ({| rw := f (rw c); calls := calls c |}, Some tt).

(** [Error(w, err); return] *)
Definition abort {A : Type} (err : error) : Act A :=
  onWriter (λ w, Error w err) ;; leave.

(** [v, err := ...; if err != nil { Error(w, err); return }] *)
Definition try {A : Type} (r : result A) : Act A :=
  match r with
  | Ok a => mret a
  | Fail err => abort err
  end.

(** [if err := ...; err != nil { Error(w, err); return }] *)
Definition check (e : option error) : Act unit :=
  match e with
  | None => mret tt
  | Some err => abort err
  end.

Definition call (cl : Call) : Act unit :=
  λ c, ({| rw := rw c; calls := calls c ++ [cl] |}, Some tt).

(** [encoder.Encode(v)] *)
Definition Encode (ch : Chunk) : Act (option error) :=
  λ c, let '(w, err) := write (rw c) ch in
       ({| rw := w; calls := calls c |}, Some err).

(** The connection a handler leaves behind. *)
Definition serveWith (h : Act unit) (c : Conn) : Conn := (h c).1.

(** *** Strings *)

Fixpoint dropString (n : nat) (s : string) : string :=
  match n, s with
  | O, _ => s
  | S n, String _ s => dropString n s
  | S _, EmptyString => EmptyString
  end.

(** strings.TrimPrefix *)
Definition TrimPrefix (s prefix : string) : string :=
  if String.prefix prefix s then dropString (String.length prefix) s else s.

(** *** Collaborators

    Functions of the Go standard library and of other files and packages of
    the repository, taken as parameters. *)
Record Deps : Type := mkDeps {
  (** strings.TrimSpace *)
  TrimSpace : string → string;
  (** path.Match, its first result *)
  pathMatch : string → string → bool;
  (** normalizeURL(r.URL, prefix): the path it leaves in [r.URL], or the
      error *)
  normalizeURL : string → string → result string;
  validateName : string → option error;
  validatePattern : string → option error;
  (** kes.Identity.IsUnknown *)
  IsUnknown : Identity → bool;
  (** json.NewDecoder(r.Body).Decode(&req) on a body read through
      http.MaxBytesReader with the given limit, for the [Request] struct of
      assignPolicy and of writePolicy *)
  decodeAssign : Z → string → result Identity;
  decodeWrite : Z → string → result (list string * list string);
  (** time.Now().UTC() *)
  now : Z;
  (** the identity of the URL-escaped, PEM-encoded certificate a proxy
      forwards, when the header value is one *)
  forwardedIdentity : string → option Identity
}.

(** tls.proxy of the configuration: the identities of the proxies and the
    header that carries the forwarded certificate. *)
Record TLSProxy : Type := mkTLSProxy {
  proxyIdentities : list Identity;
  proxyCertHeader : string
}.

(** The fields of ServerConfig the policy API reads. [Vault] stands for
    [lookupEnclave(config.Vault, r)]; the metrics and the audit log only
    observe a request. *)
Record ServerConfig : Type := mkServerConfig {
  Vault : Request → result Enclave;
  Proxy : TLSProxy
}.

Definition lookupEnclave (vault : Request → result Enclave) (r : Request)
  : result Enclave := vault r.

Record API : Type := mkAPI {
  apiMethod : string;
  apiPath : string;
  apiMaxBody : Z;
  apiTimeout : Z
}.

Definition HandlerFunc : Type := Request → Conn → Conn.

(** *** Middleware

    The handler registered for a route, as the nesting of the wrappers
    around it. *)
Inductive Chain : Type :=
| timeout (d : Z) (f : Chain)
| proxy (p : TLSProxy) (f : Chain)
| Count (f : Chain)
| Latency (f : Chain)
| handle (h : HandlerFunc).

Fixpoint hasProxy (f : Chain) : bool :=
  match f with
  | timeout _ f => hasProxy f
  | proxy _ _ => true
  | Count f => hasProxy f
  | Latency f => hasProxy f
  | handle _ => false
  end.

Definition headerValue (key : string) (hs : list (string * string))
  : option string :=
  snd <$> List.find (λ kv, String.eqb (fst kv) key) hs.

Definition inProxySet (p : TLSProxy) (id : Identity) : bool :=
  existsb (String.eqb id) (proxyIdentities p).

Section WithDeps.

Context (D : Deps).

(** Modelled from the spec: the proxy middleware, declared in another file
    of package http. "If the TLS peer
    identity is in the proxy set, replace the effective identity with the
    URL-decoded, PEM-parsed certificate in the configured header";
    "malformed values: 400". *)
Definition unwrapProxy (p : TLSProxy) (f : HandlerFunc) : HandlerFunc :=
  λ r c,
    if inProxySet p (Identify r) then
      match headerValue (proxyCertHeader p) (Headers r)
              ≫= forwardedIdentity D with
      | Some id => f (withPeer r id) c
      | None =>
          serveWith
            (abort (NewError StatusBadRequest "invalid forwarded certificate"))
            c
      end
    else f r c.

(** The handler a chain serves. The deadline of [timeout] and the counters
    of [Count] and [Latency] are not part of the model: these wrappers pass
    the request on. *)
Fixpoint serve (f : Chain) : HandlerFunc :=
  match f with
  | timeout _ f => serve f
  | proxy p f => unwrapProxy p (serve f)
  | Count f => serve f
  | Latency f => serve f
  | handle h => h
  end.

(** http.ServeMux, as the registered patterns; [HandleFunc] adds one. *)
Definition ServeMux : Type := list (string * Chain).

Definition HandleFunc (mux : ServeMux) (pattern : string) (f : Chain)
  : ServeMux := mux ++ [(pattern, f)].

Context (config : ServerConfig).

(** The common opening of the handlers: the method check, [normalizeURL], the
    enclave lookup and [enclave.VerifyRequest]. It yields the request with
    its normalized URL and the enclave. The audit wrapper around [w] only
    observes the response; the body limit is passed to the decoder where a
    handler reads the body. *)
Definition preamble (Method_ APIPath : string) (r : Request)
  : Act (Request * Enclave) :=
  if negb (String.eqb (Method r) Method_) then
    onWriter (λ w, setHeader w "Accept" Method_) ;;
    abort errMethodNotAllowed
  else
    path ← try (normalizeURL D (URLPath r) APIPath);
    let r := withPath r path in
    enclave ← try (lookupEnclave (Vault config) r);
    call (CVerifyRequest r) ;;
    check (VerifyRequest enclave r) ;;
    mret (r, enclave).

(** [strings.TrimSpace(strings.TrimPrefix(r.URL.Path, APIPath))] *)
Definition argument (r : Request) (APIPath : string) : string :=
  TrimSpace D (TrimPrefix (URLPath r) APIPath).

(** *** describePolicy *)
Definition describePolicy_Method : string := MethodGet.
Definition describePolicy_APIPath : string := "/v1/policy/describe/".
Definition describePolicy_MaxBody : Z := 0.
Definition describePolicy_Timeout : Z := 15 * Second.

Definition describePolicy_handler : HandlerFunc := λ r, serveWith (
  '(r, enclave) ← preamble describePolicy_Method describePolicy_APIPath r;
  let name := argument r describePolicy_APIPath in
  check (validateName D name) ;;
  call (CGetPolicy name) ;;
  policy ← try (GetPolicy enclave name);
  onWriter (λ w, setHeader w "Content-Type" "application/json") ;;
  Encode (DescribeBody (CreatedAt policy) (CreatedBy policy)) ;;
  mret tt).

Definition describePolicy (mux : ServeMux) : ServeMux * API :=
  (HandleFunc mux describePolicy_APIPath
     (timeout describePolicy_Timeout
        (Count (Latency (handle describePolicy_handler)))),
   {| apiMethod := describePolicy_Method; apiPath := describePolicy_APIPath;
      apiMaxBody := describePolicy_MaxBody;
      apiTimeout := describePolicy_Timeout |}).

(** *** assignPolicy *)
Definition assignPolicy_Method : string := MethodPost.
Definition assignPolicy_APIPath : string := "/v1/policy/assign/".
Definition assignPolicy_MaxBody : Z := 1024.
Definition assignPolicy_Timeout : Z := 15 * Second.

Definition errIdentityUnknown : error :=
  NewError StatusBadRequest "identity is unknown".

Definition errSelfAssign : error :=
  NewError StatusForbidden "identity cannot assign policy to itself".

Definition assignPolicy_handler : HandlerFunc := λ r, serveWith (
  '(r, enclave) ← preamble assignPolicy_Method assignPolicy_APIPath r;
  let name := argument r assignPolicy_APIPath in
  check (validateName D name) ;;
  req ← try (decodeAssign D assignPolicy_MaxBody (Body r));
  if IsUnknown D req then abort errIdentityUnknown
  else if String.eqb (Identify r) req then abort errSelfAssign
  else
    call (CAssignPolicy name req) ;;
    check (AssignPolicy enclave name req) ;;
    onWriter (λ w, WriteHeader w StatusOK)).

Definition assignPolicy (mux : ServeMux) : ServeMux * API :=
  (HandleFunc mux assignPolicy_APIPath
     (timeout assignPolicy_Timeout
        (proxy (Proxy config)
           (Count (Latency (handle assignPolicy_handler))))),
   {| apiMethod := assignPolicy_Method; apiPath := assignPolicy_APIPath;
      apiMaxBody := assignPolicy_MaxBody;
      apiTimeout := assignPolicy_Timeout |}).

(** *** readPolicy *)
Definition readPolicy_Method : string := MethodGet.
Definition readPolicy_APIPath : string := "/v1/policy/read/".
Definition readPolicy_MaxBody : Z := 0.
Definition readPolicy_Timeout : Z := 15 * Second.

Definition readPolicy_handler : HandlerFunc := λ r, serveWith (
  '(r, enclave) ← preamble readPolicy_Method readPolicy_APIPath r;
  let name := argument r readPolicy_APIPath in
  check (validateName D name) ;;
  call (CGetPolicy name) ;;
  policy ← try (GetPolicy enclave name);
  onWriter (λ w, setHeader w "Content-Type" "application/json") ;;
  Encode (ReadBody (Allow policy) (Deny policy)
            (CreatedAt policy) (CreatedBy policy)) ;;
  mret tt).

Definition readPolicy (mux : ServeMux) : ServeMux * API :=
  (HandleFunc mux readPolicy_APIPath
     (timeout readPolicy_Timeout
        (proxy (Proxy config)
           (Count (Latency (handle readPolicy_handler))))),
   {| apiMethod := readPolicy_Method; apiPath := readPolicy_APIPath;
      apiMaxBody := readPolicy_MaxBody; apiTimeout := readPolicy_Timeout |}).

(** *** writePolicy *)
Definition writePolicy_Method : string := MethodPost.
Definition writePolicy_APIPath : string := "/v1/policy/write/".
Definition writePolicy_MaxBody : Z := Z.shiftl 1 20.
Definition writePolicy_Timeout : Z := 15 * Second.

Definition writePolicy_handler : HandlerFunc := λ r, serveWith (
  '(r, enclave) ← preamble writePolicy_Method writePolicy_APIPath r;
  let name := argument r writePolicy_APIPath in
  check (validateName D name) ;;
  req ← try (decodeWrite D writePolicy_MaxBody (Body r));
  let policy :=
    {| Allow := req.1; Deny := req.2; CreatedAt := now D;
       CreatedBy := Identify r |} in
  call (CSetPolicy name policy) ;;
  check (SetPolicy enclave name policy) ;;
  onWriter (λ w, WriteHeader w StatusOK)).

Definition writePolicy (mux : ServeMux) : ServeMux * API :=
  (HandleFunc mux writePolicy_APIPath
     (timeout writePolicy_Timeout
        (proxy (Proxy config)
           (Count (Latency (handle writePolicy_handler))))),
   {| apiMethod := writePolicy_Method; apiPath := writePolicy_APIPath;
      apiMaxBody := writePolicy_MaxBody;
      apiTimeout := writePolicy_Timeout |}).

(** *** deletePolicy *)
Definition deletePolicy_Method : string := MethodDelete.
Definition deletePolicy_APIPath : string := "/v1/policy/delete/".
Definition deletePolicy_MaxBody : Z := 0.
Definition deletePolicy_Timeout : Z := 15 * Second.

Definition deletePolicy_handler : HandlerFunc := λ r, serveWith (
  '(r, enclave) ← preamble deletePolicy_Method deletePolicy_APIPath r;
  let name := argument r deletePolicy_APIPath in
  check (validateName D name) ;;
  call (CDeletePolicy name) ;;
  check (DeletePolicy enclave name) ;;
  onWriter (λ w, WriteHeader w StatusOK)).

Definition deletePolicy (mux : ServeMux) : ServeMux * API :=
  (HandleFunc mux deletePolicy_APIPath
     (timeout deletePolicy_Timeout
        (proxy (Proxy config)
           (Count (Latency (handle deletePolicy_handler))))),
   {| apiMethod := deletePolicy_Method; apiPath := deletePolicy_APIPath;
      apiMaxBody := deletePolicy_MaxBody;
      apiTimeout := deletePolicy_Timeout |}).

(** *** listPolicy *)
Definition listPolicy_Method : string := MethodGet.
Definition listPolicy_APIPath : string := "/v1/policy/list/".
Definition listPolicy_MaxBody : Z := 0.
Definition listPolicy_Timeout : Z := 15 * Second.

(** [Response{Err: err.Error()}] *)
Definition errorEntry (err : error) : Chunk :=
  ListBody {| lrName := EmptyString; lrCreatedAt := 0;
              lrCreatedBy := EmptyString; lrErr := errMessage err |}.

(** [Response{Name: ..., CreatedAt: ..., CreatedBy: ...}] *)
Definition policyEntry (name : string) (policy : Policy) : Chunk :=
  ListBody {| lrName := name; lrCreatedAt := CreatedAt policy;
              lrCreatedBy := CreatedBy policy; lrErr := EmptyString |}.

(** The loop [for iterator.Next() { ... }] over the names the iterator
    still holds; it yields [hasWritten]. *)
Fixpoint listPolicy_loop (enclave : Enclave) (pattern : string)
    (names : list string) (hasWritten : bool) : Act bool :=
  match names with
  | [] => mret hasWritten
  | name :: rest =>
      if negb (pathMatch D pattern name) then
        listPolicy_loop enclave pattern rest hasWritten
      else
        call (CGetPolicy name) ;;
        match GetPolicy enclave name with
        | Fail err => Encode (errorEntry err) ;; leave
        | Ok policy =>
            err ← Encode (policyEntry name policy);
            match err with
            | Some _ => leave
            | None => listPolicy_loop enclave pattern rest true
            end
        end
  end.

Definition listPolicy_handler : HandlerFunc := λ r, serveWith (
  '(r, enclave) ← preamble listPolicy_Method listPolicy_APIPath r;
  let pattern := argument r listPolicy_APIPath in
  check (validatePattern D pattern) ;;
  call CListPolicies ;;
  iterator ← try (ListPolicies enclave);
  onWriter (λ w, setHeader w "Content-Type" "application/x-ndjson") ;;
  hasWritten ← listPolicy_loop enclave pattern (iterNames iterator) false;
  match iterClose iterator with
  | Some err => Encode (errorEntry err) ;; leave
  | None =>
      if negb hasWritten then onWriter (λ w, WriteHeader w StatusOK)
      else mret tt
  end).

Definition listPolicy (mux : ServeMux) : ServeMux * API :=
  (HandleFunc mux listPolicy_APIPath
     (timeout listPolicy_Timeout
        (proxy (Proxy config)
           (Count (Latency (handle listPolicy_handler))))),
   {| apiMethod := listPolicy_Method; apiPath := listPolicy_APIPath;
      apiMaxBody := listPolicy_MaxBody; apiTimeout := listPolicy_Timeout |}).

(** The handler at the core of a chain. *)
Fixpoint handlerOf (f : Chain) : HandlerFunc :=
  match f with
  | timeout _ f => handlerOf f
  | proxy _ f => handlerOf f
  | Count f => handlerOf f
  | Latency f => handlerOf f
  | handle h => h
  end.

(** The request passes the opening of a handler with method [Method_] and
    prefix [APIPath]: [path] is its normalized path and [enclave] the
    enclave that verified it. *)
Definition passes (Method_ APIPath : string) (r : Request) (path : string)
    (enclave : Enclave) : Prop :=
  Method r = Method_ ∧
  normalizeURL D (URLPath r) APIPath = Ok path ∧
  lookupEnclave (Vault config) (withPath r path) = Ok enclave ∧
  VerifyRequest enclave (withPath r path) = None.

(** The calls that read from the enclave. *)
Definition readOnly (cl : Call) : Prop :=
  match cl with
  | CVerifyRequest _ | CGetPolicy _ | CListPolicies => True
  | _ => False
  end.

(** Every call the action adds to the log satisfies [P]. *)
Definition logs {A : Type} (P : Call → Prop) (m : Act A) : Prop :=
  ∀ c c' o, m c = (c', o) → ∃ l, calls c' = calls c ++ l ∧ Forall P l.

(** The six routes of the policy API, registered on an empty mux. *)
Definition policyRoutes : ServeMux * list API :=
  let '(mux, a1) := describePolicy [] in
  let '(mux, a2) := assignPolicy mux in
  let '(mux, a3) := readPolicy mux in
  let '(mux, a4) := writePolicy mux in
  let '(mux, a5) := deletePolicy mux in
  let '(mux, a6) := listPolicy mux in
  (mux, [a1; a2; a3; a4; a5; a6]).

End WithDeps.

End PolicyAPI.

(** ** A small deployment

    Concrete collaborators, a configuration and requests on which the
    handlers can be run. The decoders are stand-ins: the body of an assign
    request is the identity itself, and names match a pattern when they are
    equal to it or the pattern is a single star. *)

Module Fixture.
Import PolicyAPI.

Definition errNotAllowed : error :=
  NewError StatusForbidden "not authorized: insufficient permissions".

Definition errPolicyNotFound : error := NewError 404 "policy does not exist".

Definition deps : Deps :=
  {| TrimSpace := λ s, s;
     pathMatch := λ pattern name,
       String.eqb pattern "*" || String.eqb pattern name;
     normalizeURL := λ path prefix,
       if String.prefix prefix path then Ok path
       else Fail (NewError StatusBadRequest "invalid path");
     validateName := λ name,
       if String.eqb name EmptyString
       then Some (NewError StatusBadRequest "invalid argument: name is empty")
       else None;
     validatePattern := λ _, None;
     IsUnknown := λ id, String.eqb id EmptyString;
     decodeAssign := λ limit body,
       if (Z.of_nat (String.length body) <=? limit)%Z then Ok body
       else Fail (NewError 413 "request body too large");
     decodeWrite := λ _ _, Ok ([], []);
     now := 1650000000;
     forwardedIdentity := λ value, Some value |}.

(** The enclave knows three policies; the metadata of one of them cannot be
    fetched. Only the identity [root] is authorized. *)
Definition enclave : Enclave :=
  {| VerifyRequest := λ r,
       if String.eqb (Identify r) "root" then None else Some errNotAllowed;
     GetPolicy := λ name,
       if String.eqb name "ops" then Ok (mkPolicy [] [] 11 "root")
       else if String.eqb name "dev" then Ok (mkPolicy [] [] 22 "alice")
       else Fail errPolicyNotFound;
     SetPolicy := λ _ _, None;
     DeletePolicy := λ _, None;
     AssignPolicy := λ _ _, None;
     ListPolicies := Ok (mkPolicyIterator ["ops"; "dev"] None) |}.

Definition brokenEnclave : Enclave :=
  {| VerifyRequest := VerifyRequest enclave;
     GetPolicy := GetPolicy enclave;
     SetPolicy := SetPolicy enclave;
     DeletePolicy := DeletePolicy enclave;
     AssignPolicy := AssignPolicy enclave;
     ListPolicies := Ok (mkPolicyIterator ["ops"; "gone"; "dev"] None) |}.

Definition config : ServerConfig :=
  {| Vault := λ _, Ok enclave;
     Proxy := {| proxyIdentities := ["nginx"];
                 proxyCertHeader := "X-Tls-Client-Cert" |} |}.

Definition brokenConfig : ServerConfig :=
  {| Vault := λ _, Ok brokenEnclave; Proxy := Proxy config |}.

(** [root] asks to bind itself to the policy [ops]. *)
Definition selfAssign : Request :=
  {| Method := "POST"; URLPath := "/v1/policy/assign/ops";
     Body := "root"; Peer := "root"; Headers := [] |}.

(** The same request sent with the wrong method. *)
Definition selfAssignGet : Request :=
  {| Method := "GET"; URLPath := "/v1/policy/assign/ops";
     Body := "root"; Peer := "root"; Headers := [] |}.

(** [alice], who is not authorized, asks to bind herself to [ops]. *)
Definition selfAssignDenied : Request :=
  {| Method := "POST"; URLPath := "/v1/policy/assign/ops";
     Body := "alice"; Peer := "alice"; Headers := [] |}.

(** [root] asks to bind the unknown identity to [ops]. *)
Definition assignUnknown : Request :=
  {| Method := "POST"; URLPath := "/v1/policy/assign/ops";
     Body := EmptyString; Peer := "root"; Headers := [] |}.

Definition assignUnknownDelete : Request :=
  {| Method := "DELETE"; URLPath := "/v1/policy/assign/ops";
     Body := EmptyString; Peer := "root"; Headers := [] |}.

Definition assignUnknownDenied : Request :=
  {| Method := "POST"; URLPath := "/v1/policy/assign/ops";
     Body := EmptyString; Peer := "alice"; Headers := [] |}.

(** [root] asks to bind [alice] to [ops]. *)
Definition assignAlice : Request :=
  {| Method := "POST"; URLPath := "/v1/policy/assign/ops";
     Body := "alice"; Peer := "root"; Headers := [] |}.

(** [root] lists all policies. *)
Definition listAll : Request :=
  {| Method := "GET"; URLPath := "/v1/policy/list/*";
     Body := EmptyString; Peer := "root"; Headers := [] |}.

(** The proxy [nginx] forwards a request of [root]. *)
Definition viaProxy (path : string) : Request :=
  {| Method := "GET"; URLPath := path; Body := EmptyString;
     Peer := "nginx"; Headers := [("X-Tls-Client-Cert", "root")] |}.

(** [root] deletes, writes, describes and reads the policy [ops]. *)
Definition deleteOps : Request :=
  {| Method := "DELETE"; URLPath := "/v1/policy/delete/ops";
     Body := EmptyString; Peer := "root"; Headers := [] |}.

Definition writeOps : Request :=
  {| Method := "POST"; URLPath := "/v1/policy/write/ops";
     Body := EmptyString; Peer := "root"; Headers := [] |}.

Definition describeOps : Request :=
  {| Method := "GET"; URLPath := "/v1/policy/describe/ops";
     Body := EmptyString; Peer := "root"; Headers := [] |}.

Definition readOps : Request :=
  {| Method := "GET"; URLPath := "/v1/policy/read/ops";
     Body := EmptyString; Peer := "root"; Headers := [] |}.

(** A connection that accepts one more write. *)
Definition lastWrite : Conn :=
  {| rw := {| header := []; status := None; body := [];
              writesLeft := Some 1 |};
     calls := [] |}.

(** A larger deployment for listings. Here a pattern matches a name when
    the two are equal up to a star that ends the pattern, which matches the
    rest of the name. *)
Fixpoint globMatch (pattern name : string) : bool :=
  match pattern with
  | EmptyString => String.eqb name EmptyString
  | String a pattern' =>
      if String.eqb pattern "*" then true
      else
        match name with
        | EmptyString => false
        | String b name' => Ascii.eqb a b && globMatch pattern' name'
        end
  end.

Definition globDeps : Deps :=
  {| TrimSpace := TrimSpace deps;
     pathMatch := globMatch;
     normalizeURL := normalizeURL deps;
     validateName := validateName deps;
     validatePattern := validatePattern deps;
     IsUnknown := IsUnknown deps;
     decodeAssign := decodeAssign deps;
     decodeWrite := decodeWrite deps;
     now := now deps;
     forwardedIdentity := forwardedIdentity deps |}.

Definition teamPolicy (name : string) : result Policy :=
  if String.eqb name "ops" then Ok (mkPolicy [] [] 11 "root")
  else if String.eqb name "dev" then Ok (mkPolicy [] [] 22 "alice")
  else if String.eqb name "doc" then Ok (mkPolicy [] [] 33 "root")
  else Fail errPolicyNotFound.

(** Three policies, all of which can be fetched. *)
Definition smallTeamEnclave : Enclave :=
  {| VerifyRequest := VerifyRequest enclave;
     GetPolicy := teamPolicy;
     SetPolicy := SetPolicy enclave;
     DeletePolicy := DeletePolicy enclave;
     AssignPolicy := AssignPolicy enclave;
     ListPolicies := Ok (mkPolicyIterator ["dev"; "ops"; "doc"] None) |}.

(** Four policies; the metadata of [dead] cannot be fetched. *)
Definition teamEnclave : Enclave :=
  {| VerifyRequest := VerifyRequest enclave;
     GetPolicy := teamPolicy;
     SetPolicy := SetPolicy enclave;
     DeletePolicy := DeletePolicy enclave;
     AssignPolicy := AssignPolicy enclave;
     ListPolicies := Ok (mkPolicyIterator ["ops"; "dev"; "dead"; "doc"] None) |}.

Definition smallTeamConfig : ServerConfig :=
  {| Vault := λ _, Ok smallTeamEnclave; Proxy := Proxy config |}.

Definition teamConfig : ServerConfig :=
  {| Vault := λ _, Ok teamEnclave; Proxy := Proxy config |}.

(** [root] lists the policies whose name starts with d. *)
Definition listD : Request :=
  {| Method := "GET"; URLPath := "/v1/policy/list/d*";
     Body := EmptyString; Peer := "root"; Headers := [] |}.

End Fixture.

(** ** Properties of package mem *)

Module MemSpec.
Import Mem.

Section WithKey.

Context {Key : Type} (zeroKey : Key).

Implicit Types (s : @Store Key) (m : @gomap Key) (i : iterator)
  (ρ : @RangeOrder Key) (steps : list (@Step Key)) (name : string) (k : Key).

Lemma contents_map_delete m name :
  contents (map_delete m name) = delete name (contents m).
Proof.
  destruct m as [g|]; simpl; [reflexivity|].
  symmetry. apply delete_empty.
Qed.

Lemma Create_absent s name k :
  map_index (store s) name = None →
  Create s name k =
    Done ({| store := Some (<[name := k]> (contents (store s))) |}, None).
Proof.
  intros Hnone. unfold Create.
  destruct s as [[g|]]; simpl in *.
  - unfold map_index in *. simpl in *. rewrite Hnone. reflexivity.
  - unfold map_index. simpl. rewrite lookup_empty. reflexivity.
Qed.

Lemma Create_present s name k k0 :
  map_index (store s) name = Some k0 →
  Create s name k = Done (s, Some ErrKeyExists).
Proof.
  intros Hsome. unfold Create.
  destruct s as [[g|]]; simpl in *.
  - unfold map_index in *. simpl in *. rewrite Hsome. reflexivity.
  - unfold map_index in Hsome. simpl in Hsome.
    rewrite lookup_empty in Hsome. discriminate.
Qed.

Lemma Create_total s name k : ∃ s' err, Create s name k = Done (s', err).
Proof.
  destruct (map_index (store s) name) as [k0|] eqn:E.
  - eexists _, _. by eapply Create_present.
  - eexists _, _. by apply Create_absent.
Qed.

Lemma Get_index s name :
  Get zeroKey s name =
    match map_index (store s) name with
    | Some k => (k, None)
    | None => (zeroKey, Some ErrKeyNotFound)
    end.
Proof. unfold Get. by destruct (map_index (store s) name). Qed.

(** C4. [Create(name, k)] always returns; it returns nil exactly when the
    store has no entry for [name], and then the store is the old one with
    [k] under [name] (so [Get(name)] returns [k]); otherwise it returns
    [ErrKeyExists] and the store is the one it was called on. *)
Theorem create_iff_absent s name k :
  ∃ s' err,
    Create s name k = Done (s', err) ∧
    (err = None ↔ map_index (store s) name = None) ∧
    (err = None →
       contents (store s') = <[name := k]> (contents (store s)) ∧
       Get zeroKey s' name = (k, None)) ∧
    (err ≠ None → err = Some ErrKeyExists ∧ s' = s).
Proof.
  destruct (map_index (store s) name) as [k0|] eqn:E.
  - exists s, (Some ErrKeyExists). split; [by eapply Create_present|].
    repeat split; try done.
  - eexists _, None. split; [by apply Create_absent|].
    repeat split; try done.
    rewrite Get_index. unfold map_index. simpl.
    by rewrite lookup_insert_eq.
Qed.

(** *** Histories *)

Lemma track_event_untouched name (acc : option Key) ev :
  ¬ touches name ev → track_event name acc ev = acc.
Proof.
  destruct ev as [| n k [e|] | n e | |]; simpl; try done.
  - intros Hn. by case_decide.
  - intros Hn. by case_decide.
Qed.

Lemma track_untouched name (acc : option Key) evs :
  Forall (λ ev, ¬ touches name ev) evs → track name acc evs = acc.
Proof.
  unfold track. induction 1 as [|ev evs Hev _ IH]; simpl; [done|].
  by rewrite track_event_untouched.
Qed.

Lemma track_snoc name (acc : option Key) evs ev :
  track name acc (evs ++ [ev]) = track_event name (track name acc evs) ev.
Proof. unfold track. by rewrite foldl_app. Qed.

Lemma last_create_track name k (init : option Key) evs :
  last_create name k evs → track name init evs = Some k.
Proof.
  intros (before & after & -> & Hafter).
  unfold track. rewrite foldl_app. simpl.
  rewrite decide_True by done.
  by apply track_untouched.
Qed.

Lemma track_last_create name k evs :
  track name None evs = Some k → last_create name k evs.
Proof.
  induction evs as [|ev evs IH] using rev_ind; [done|].
  rewrite track_snoc.
  destruct (decide (touches name ev)) as [Ht|Ht].
  - destruct ev as [| n k' [e|] | n e | |]; simpl in Ht; try done; subst n;
      simpl; rewrite decide_True by done; [|done].
    intros [= ->]. exists evs, []. split; [done|]. constructor.
  - rewrite track_event_untouched by done.
    intros (before & after & -> & Hafter)%IH.
    exists before, (after ++ [ev]). split.
    + by rewrite <- app_assoc.
    + apply Forall_app. split; [done|]. by constructor.
Qed.

Lemma exec_index s op s' ev name :
  exec zeroKey s op = Done (s', ev) →
  map_index (store s') name = track_event name (map_index (store s) name) ev.
Proof.
  destruct op as [| n k | n | n | ρ]; simpl.
  - by intros [= <- <-].
  - destruct (map_index (store s) n) as [k0|] eqn:E.
    + rewrite (Create_present _ _ _ _ E). by intros [= <- <-].
    + rewrite (Create_absent _ _ _ E). intros [= <- <-]. simpl.
      unfold map_index at 1. simpl. rewrite lookup_insert.
      by case_decide.
  - intros [= <- <-]. simpl. unfold map_index at 1.
    rewrite contents_map_delete, lookup_delete.
    by case_decide.
  - destruct (Get zeroKey s n) as [k e] eqn:E. by intros [= <- <-].
  - by intros [= <- <-].
Qed.

Lemma exec_total s op : ∃ s' ev, exec zeroKey s op = Done (s', ev).
Proof.
  destruct op as [| n k | n | n | ρ]; simpl; eauto.
  - destruct (Create_total s n k) as (s' & err & ->). eauto.
  - destruct (Get zeroKey s n). eauto.
Qed.

Lemma run_total s ops : ∃ s' evs, run zeroKey s ops = Done (s', evs).
Proof.
  revert s. induction ops as [|op ops IH]; intros s; simpl; [eauto|].
  destruct (exec_total s op) as (s1 & ev & ->).
  destruct (IH s1) as (s2 & evs & ->). eauto.
Qed.

Lemma run_index s ops s' evs name :
  run zeroKey s ops = Done (s', evs) →
  map_index (store s') name = track name (map_index (store s) name) evs.
Proof.
  revert s evs. induction ops as [|op ops IH]; intros s evs; simpl.
  - by intros [= <- <-].
  - destruct (exec zeroKey s op) as [[s1 ev]|] eqn:E1; [|done].
    destruct (run zeroKey s1 ops) as [[s2 evs2]|] eqn:E2; [|done].
    intros [= <- <-]. rewrite (IH _ _ E2).
    by rewrite (exec_index _ _ _ _ name E1).
Qed.

(** C5. Every sequence of calls on a fresh store runs to its end, and
    afterwards [Get(name)] returns the key [k] of the most recent successful
    [Create(name, k)] that no [Delete(name)] follows; when the history has
    no such [Create], [Get(name)] fails with [ErrKeyNotFound]. *)
Theorem get_returns_last_create ops name :
  ∃ s evs,
    run zeroKey zeroStore ops = Done (s, evs) ∧
    (∀ k, last_create name k evs → Get zeroKey s name = (k, None)) ∧
    ((∀ k, ¬ last_create name k evs) →
       Get zeroKey s name = (zeroKey, Some ErrKeyNotFound)).
Proof.
  destruct (run_total zeroStore ops) as (s & evs & Hrun).
  exists s, evs. split; [done|].
  pose proof (run_index _ _ _ _ name Hrun) as Hidx.
  change (map_index (store zeroStore) name) with (@None Key) in Hidx.
  rewrite Get_index, Hidx. split.
  - intros k Hk. by rewrite (last_create_track _ _ None _ Hk).
  - intros Hno. destruct (track name None evs) as [k|] eqn:E; [|done].
    destruct (Hno k). by apply track_last_create.
Qed.

(** C6. [Delete(name)] returns nil on every store, with or without an entry
    for [name]; after it [Get(name)] fails with [ErrKeyNotFound]; and a
    second [Delete(name)] returns nil again and leaves the store as the
    first one left it. *)
Theorem delete_idempotent s name :
  ∃ s1,
    Delete s name = (s1, None) ∧
    Get zeroKey s1 name = (zeroKey, Some ErrKeyNotFound) ∧
    Delete s1 name = (s1, None).
Proof.
  exists {| store := map_delete (store s) name |}.
  split; [done|]. split.
  - rewrite Get_index. unfold map_index. simpl.
    by rewrite contents_map_delete, lookup_delete_eq.
  - unfold Delete. simpl. do 2 f_equal.
    destruct (store s) as [g|]; simpl; [|done].
    by rewrite delete_delete_eq.
Qed.

(** *** The zero value *)

Lemma foldl_snoc_app (acc l : list string) :
  foldl (λ (names : list string) name, names ++ [name]) acc l = acc ++ l.
Proof.
  revert acc. induction l as [|x l IH]; intros acc; simpl.
  - by rewrite app_nil_r.
  - rewrite IH. by rewrite <- app_assoc.
Qed.

Lemma List_values ρ s :
  List ρ s = ({| values := map_range ρ (store s); last := EmptyString |}, None).
Proof. unfold List. by rewrite foldl_snoc_app. Qed.

Lemma map_range_nil ρ : map_range ρ None = [].
Proof.
  unfold map_range. simpl. apply Permutation_nil_r.
  by rewrite (range_keys_perm ρ ∅), dom_empty_L, elements_empty.
Qed.

(** C9. On the zero-value store no method panics: [Status] reports an
    available store with latency 0, [Get] fails with [ErrKeyNotFound],
    [Delete] returns nil, [List] returns nil and an iterator without names,
    and [Create] makes the map and returns nil. *)
Theorem zero_value_ready ρ name k :
  Status (@zeroStore Key) =
    ({| State := StoreAvailable; Latency := 0 |}, None) ∧
  Get zeroKey zeroStore name = (zeroKey, Some ErrKeyNotFound) ∧
  Delete (@zeroStore Key) name = (zeroStore, None) ∧
  List ρ zeroStore = ({| values := []; last := EmptyString |}, None) ∧
  Next (List ρ zeroStore).1 = (false, (List ρ zeroStore).1) ∧
  Create zeroStore name k = Done ({| store := Some {[name := k]} |}, None).
Proof.
  assert (List ρ zeroStore =
          ({| values := []; last := EmptyString |}, None)) as HL.
  { rewrite List_values. simpl. by rewrite map_range_nil. }
  repeat split; try done.
  by rewrite HL.
Qed.

(** *** The iterator *)

Lemma interleave_outs steps s i :
  ∃ s' i',
    interleave s i steps =
      Done (s', i',
            (Some <$> take (nexts steps) (values i)) ++
            replicate (nexts steps - length (values i)) None) ∧
    values i' = drop (nexts steps) (values i).
Proof.
  revert s i. induction steps as [|st steps IH]; intros s i; simpl.
  - by exists s, i.
  - destruct st as [n k | n |].
    + destruct (Create_total s n k) as (s1 & err & ->). apply IH.
    + apply IH.
    + unfold Next. destruct (values i) as [|v rest] eqn:Ev.
      * destruct (IH s i) as (s' & i' & -> & Hi'). exists s', i'.
        rewrite Ev in *. rewrite take_nil, drop_nil in *. simpl.
        rewrite Nat.sub_0_r. done.
      * destruct (IH s {| values := rest; last := v |}) as (s' & i' & -> & Hi').
        exists s', i'. simpl in *. done.
Qed.

(** C10. [List] returns nil and an iterator holding the names the store has
    at that moment, each once. Whatever [Create] and [Delete] calls are
    mixed with the calls of [Next] afterwards, the calls of [Next] yield
    these names in the iterator's order and then return false for good;
    [Err] is nil on every iterator. *)
Theorem list_is_snapshot ρ s steps :
  ∃ it,
    List ρ s = (it, None) ∧
    NoDup (values it) ∧
    (∀ name, name ∈ values it ↔ is_Some (map_index (store s) name)) ∧
    (∃ s' it',
       interleave s it steps =
         Done (s', it',
               (Some <$> take (nexts steps) (values it)) ++
               replicate (nexts steps - length (values it)) None)) ∧
    (∀ i, Err i = None).
Proof.
  eexists. split; [apply List_values|]. simpl.
  pose proof (range_keys_perm ρ (contents (store s))) as Hperm.
  unfold map_range. repeat split.
  - rewrite Hperm. apply NoDup_elements.
  - rewrite Hperm, elem_of_elements, elem_of_dom. done.
  - rewrite Hperm, elem_of_elements, elem_of_dom. done.
  - destruct (interleave_outs steps s
      {| values := range_keys ρ (contents (store s)); last := EmptyString |})
      as (s' & i' & H & _).
    eauto.
Qed.

End WithKey.

(** *** The store on concrete calls, with numbers as keys *)

Example history_example :
  match
    run 0%Z zeroStore
      [OpCreate "a" 1%Z; OpCreate "a" 2%Z; OpGet "a"; OpDelete "a";
       OpGet "a"; OpDelete "a"; OpCreate "a" 3%Z; OpGet "a"]
  with
  | Done (_, evs) =>
      evs = [EvCreate "a" 1%Z None; EvCreate "a" 2%Z (Some ErrKeyExists);
             EvGet "a" 1%Z None; EvDelete "a" None;
             EvGet "a" 0%Z (Some ErrKeyNotFound); EvDelete "a" None;
             EvCreate "a" 3%Z None; EvGet "a" 3%Z None]
  | Panic => False
  end.
Proof. vm_compute. reflexivity. Qed.

Example snapshot_example :
  match Create (@zeroStore Z) "a" 1%Z with
  | Done (s, _) =>
      let it := (List sorted_order s).1 in
      match interleave s it [DoNext; DoCreate "b" 2%Z; DoDelete "a";
                             DoNext; DoNext] with
      | Done (s', _, outs) =>
          outs = [Some "a"; None; None] ∧
          Get 0%Z s' "a" = (0%Z, Some ErrKeyNotFound) ∧
          Get 0%Z s' "b" = (2%Z, None)
      | Panic => False
      end
  | Panic => False
  end.
Proof. vm_compute. repeat split. Qed.

(** Without the nil check of [Create] the write would panic. *)
Example assign_nil_panics : map_assign (@None (gmap string Z)) "a" 1%Z = Panic.
Proof. reflexivity. Qed.

End MemSpec.

(** ** Properties of the policy API *)

Module PolicyAPISpec.
Import PolicyAPI.

Section WithDeps.

Context (D : Deps) (config : ServerConfig).

Implicit Types (r : Request) (c : Conn) (w : ResponseWriter) (err : error)
  (enclave : Enclave) (id : Identity).

(** Unfolding of the monad. *)
Ltac run_act :=
  unfold serveWith, abort, try, check, call, onWriter, leave, Encode,
    mbind, mret, Act_bind, Act_ret; simpl.

Lemma eqb_string_true (a b : string) : a = b → String.eqb a b = true.
Proof. intros ->. apply String.eqb_refl. Qed.

Lemma eqb_string_false (a b : string) : a ≠ b → String.eqb a b = false.
Proof. intros Hne. by apply String.eqb_neq. Qed.

(** *** The opening of a handler *)

Lemma preamble_wrong_method (M P : string) r c :
  Method r ≠ M →
  preamble D config M P r c =
    ({| rw := Error (setHeader (rw c) "Accept" M) errMethodNotAllowed;
        calls := calls c |}, None).
Proof.
  intros Hm. unfold preamble. rewrite (eqb_string_false _ _ Hm). simpl.
  by run_act.
Qed.

Lemma preamble_pass (M P : string) r c path enclave :
  Method r = M →
  normalizeURL D (URLPath r) P = Ok path →
  lookupEnclave (Vault config) (withPath r path) = Ok enclave →
  VerifyRequest enclave (withPath r path) = None →
  preamble D config M P r c =
    ({| rw := rw c; calls := calls c ++ [CVerifyRequest (withPath r path)] |},
     Some (withPath r path, enclave)).
Proof.
  intros Hm Hn Hl Hv. unfold preamble.
  rewrite (eqb_string_true _ _ Hm). simpl.
  run_act. rewrite Hn. simpl. rewrite Hl. simpl. rewrite Hv. done.
Qed.

(** Whatever the opening does, the only call it makes is [VerifyRequest];
    when it passes, the writer is untouched and the request differs from
    the incoming one in its URL only. *)
Lemma preamble_inv (M P : string) r c c' o :
  preamble D config M P r c = (c', o) →
  (∃ rs, calls c' = calls c ++ (CVerifyRequest <$> rs)) ∧
  match o with
  | Some (r', _) => rw c' = rw c ∧ ∃ path, r' = withPath r path
  | None => True
  end.
Proof.
  unfold preamble. destruct (String.eqb (Method r) M); simpl.
  - run_act.
    destruct (normalizeURL D (URLPath r) P) as [path|e]; simpl.
    + destruct (lookupEnclave (Vault config) (withPath r path))
        as [enclave|e]; simpl.
      * destruct (VerifyRequest enclave (withPath r path)) as [e|];
          simpl; intros [= <- <-]; simpl.
        -- split; [|done]. by exists [withPath r path].
        -- split; [by exists [withPath r path]|]. split; [done|]. by exists path.
      * intros [= <- <-]. simpl. split; [|done]. exists []. simpl.
        by rewrite app_nil_r.
    + intros [= <- <-]. simpl. split; [|done]. exists []. simpl.
      by rewrite app_nil_r.
  - run_act. intros [= <- <-]. simpl. split; [|done]. exists []. simpl.
    by rewrite app_nil_r.
Qed.

Lemma no_assign_in_verify (rs : list Request) (cs : list Call) name id :
  CAssignPolicy name id ∈ cs ++ (CVerifyRequest <$> rs) →
  CAssignPolicy name id ∈ cs.
Proof.
  rewrite elem_of_app. intros [H|H]; [done|].
  apply list_elem_of_fmap in H as (x & Hx & _). done.
Qed.

(** *** assignPolicy *)

(** A request the handler decodes to [id] and then rejects at one of its
    two guards makes no [AssignPolicy] call. *)
Lemma assign_guarded_no_call r c id :
  decodeAssign D assignPolicy_MaxBody (Body r) = Ok id →
  IsUnknown D id = true ∨ Identify r = id →
  ∀ name i,
    CAssignPolicy name i ∈ calls (assignPolicy_handler D config r c) →
    CAssignPolicy name i ∈ calls c.
Proof.
  intros Hdec Hguard name i. unfold assignPolicy_handler, serveWith.
  unfold mbind at 1. unfold Act_bind.
  destruct (preamble D config assignPolicy_Method assignPolicy_APIPath r c)
    as [c1 o] eqn:Hpre.
  apply preamble_inv in Hpre as [[rs Hcalls] Ho].
  destruct o as [[r' enclave]|]; simpl.
  - destruct Ho as [_ [path ->]]. run_act.
    destruct (validateName D _) as [e|]; simpl.
    + rewrite Hcalls. apply no_assign_in_verify.
    + rewrite Hdec. simpl.
      destruct (IsUnknown D id) eqn:Hu; simpl.
      * rewrite Hcalls. apply no_assign_in_verify.
      * destruct Hguard as [?|Hself]; [done|].
        unfold Identify in *. simpl. rewrite (eqb_string_true _ _ Hself).
        simpl. rewrite Hcalls. apply no_assign_in_verify.
  - rewrite Hcalls. apply no_assign_in_verify.
Qed.

(** What the handler does with a request that passes the opening and the
    name check and whose body decodes to [id]. *)
Lemma assign_after_decode r c path enclave id :
  Method r = MethodPost →
  normalizeURL D (URLPath r) assignPolicy_APIPath = Ok path →
  lookupEnclave (Vault config) (withPath r path) = Ok enclave →
  VerifyRequest enclave (withPath r path) = None →
  validateName D (argument D (withPath r path) assignPolicy_APIPath) = None →
  decodeAssign D assignPolicy_MaxBody (Body r) = Ok id →
  let name := argument D (withPath r path) assignPolicy_APIPath in
  let verified := calls c ++ [CVerifyRequest (withPath r path)] in
  assignPolicy_handler D config r c =
    if IsUnknown D id then
      {| rw := Error (rw c) errIdentityUnknown; calls := verified |}
    else if String.eqb (Identify r) id then
      {| rw := Error (rw c) errSelfAssign; calls := verified |}
    else
      {| rw := match AssignPolicy enclave name id with
               | Some err => Error (rw c) err
               | None => WriteHeader (rw c) StatusOK
               end;
         calls := verified ++ [CAssignPolicy name id] |}.
Proof.
  intros Hm Hn Hl Hv Hname Hdec. simpl.
  unfold assignPolicy_handler, serveWith. unfold mbind at 1. unfold Act_bind.
  rewrite (preamble_pass _ _ _ _ _ _ Hm Hn Hl Hv). simpl.
  run_act. rewrite Hname. simpl. rewrite Hdec. simpl.
  destruct (IsUnknown D id); simpl; [done|].
  unfold Identify. simpl.
  destruct (String.eqb (Peer r) id); simpl; [done|].
  by destruct (AssignPolicy enclave _ id).
Qed.

(** C1, amended. When the caller's identity is the identity the body
    decodes to, the handler makes no [AssignPolicy] call; and when moreover
    the request is a POST that passes URL normalization, the enclave
    lookup, [VerifyRequest] and the name check, and the identity is not the
    unknown one, the handler answers with [Error] of status 403 and message
    "identity cannot assign policy to itself". *)
Theorem self_assign_forbidden r c id :
  decodeAssign D assignPolicy_MaxBody (Body r) = Ok id →
  Identify r = id →
  let c' := assignPolicy_handler D config r c in
  (∀ name i, CAssignPolicy name i ∈ calls c' → CAssignPolicy name i ∈ calls c) ∧
  (∀ path enclave,
     Method r = MethodPost →
     normalizeURL D (URLPath r) assignPolicy_APIPath = Ok path →
     lookupEnclave (Vault config) (withPath r path) = Ok enclave →
     VerifyRequest enclave (withPath r path) = None →
     validateName D (argument D (withPath r path) assignPolicy_APIPath)
       = None →
     IsUnknown D id = false →
     rw c' =
       Error (rw c)
         (NewError 403 "identity cannot assign policy to itself") ∧
     calls c' = calls c ++ [CVerifyRequest (withPath r path)]).
Proof.
  intros Hdec Hself. simpl. split.
  - apply assign_guarded_no_call with id; auto.
  - intros path enclave Hm Hn Hl Hv Hname Hu.
    rewrite (assign_after_decode _ c _ _ _ Hm Hn Hl Hv Hname Hdec).
    rewrite Hu, (eqb_string_true _ _ Hself). done.
Qed.

(** C8, amended. When the body decodes to the unknown identity, the handler
    makes no [AssignPolicy] call; and when moreover the request is a POST
    that passes URL normalization, the enclave lookup, [VerifyRequest] and
    the name check, the handler answers with [Error] of status 400 and
    message "identity is unknown". *)
Theorem unknown_identity_rejected r c id :
  decodeAssign D assignPolicy_MaxBody (Body r) = Ok id →
  IsUnknown D id = true →
  let c' := assignPolicy_handler D config r c in
  (∀ name i, CAssignPolicy name i ∈ calls c' → CAssignPolicy name i ∈ calls c) ∧
  (∀ path enclave,
     Method r = MethodPost →
     normalizeURL D (URLPath r) assignPolicy_APIPath = Ok path →
     lookupEnclave (Vault config) (withPath r path) = Ok enclave →
     VerifyRequest enclave (withPath r path) = None →
     validateName D (argument D (withPath r path) assignPolicy_APIPath)
       = None →
     rw c' = Error (rw c) (NewError 400 "identity is unknown") ∧
     calls c' = calls c ++ [CVerifyRequest (withPath r path)]).
Proof.
  intros Hdec Hu. simpl. split.
  - apply assign_guarded_no_call with id; auto.
  - intros path enclave Hm Hn Hl Hv Hname.
    rewrite (assign_after_decode _ c _ _ _ Hm Hn Hl Hv Hname Hdec).
    rewrite Hu. done.
Qed.

(** C3, amended. [assignPolicy] registers its handler under the pattern
    /v1/policy/assign/ and describes the route as POST with a body of at
    most 1024 bytes = 1 KiB; the handler rejects every other method, reads
    the body under that limit, takes the policy name from the rest of the
    path and, for a request that passes all checks, calls
    [AssignPolicy(name, identity)]. *)
Theorem assign_route (mux : ServeMux) :
  assignPolicy D config mux =
    (mux ++ [("/v1/policy/assign/",
              timeout 15000000000
                (proxy (Proxy config)
                   (Count (Latency (handle (assignPolicy_handler D config))))))],
     {| apiMethod := "POST"; apiPath := "/v1/policy/assign/";
        apiMaxBody := 2 ^ 10; apiTimeout := 15000000000 |}) ∧
  (∀ r c, Method r ≠ "POST" →
     assignPolicy_handler D config r c =
       {| rw := Error (setHeader (rw c) "Accept" "POST") errMethodNotAllowed;
          calls := calls c |}) ∧
  (∀ r c path enclave id,
     Method r = "POST" →
     normalizeURL D (URLPath r) "/v1/policy/assign/" = Ok path →
     lookupEnclave (Vault config) (withPath r path) = Ok enclave →
     VerifyRequest enclave (withPath r path) = None →
     let name := TrimSpace D (TrimPrefix path "/v1/policy/assign/") in
     validateName D name = None →
     decodeAssign D 1024 (Body r) = Ok id →
     IsUnknown D id = false →
     Identify r ≠ id →
     assignPolicy_handler D config r c =
       {| rw := match AssignPolicy enclave name id with
                | Some err => Error (rw c) err
                | None => WriteHeader (rw c) 200
                end;
          calls := calls c ++
                   [CVerifyRequest (withPath r path); CAssignPolicy name id] |}).
Proof.
  split; [reflexivity|]. split.
  - intros r c Hm. unfold assignPolicy_handler, serveWith.
    unfold mbind at 1. unfold Act_bind.
    by rewrite preamble_wrong_method.
  - intros r c path enclave id Hm Hn Hl Hv name Hname Hdec Hu Hself.
    rewrite (assign_after_decode _ c _ _ _ Hm Hn Hl Hv Hname Hdec).
    rewrite Hu, (eqb_string_false _ _ Hself). simpl.
    by rewrite <- app_assoc.
Qed.

(** *** listPolicy *)

Lemma write_up w (ch : Chunk) :
  writesLeft w = None →
  ∃ w', write w ch = (w', None) ∧
        body w' = body w ++ [ch] ∧ writesLeft w' = None.
Proof.
  intros Hup. unfold write. rewrite Hup. simpl.
  eexists. split; [done|]. simpl. split; [|done].
  unfold WriteHeader. by destruct (status w).
Qed.

Lemma loop_app enclave (pattern : string) (pre rest : list string)
    (hasWritten : bool) c :
  listPolicy_loop D enclave pattern (pre ++ rest) hasWritten c =
    match listPolicy_loop D enclave pattern pre hasWritten c with
    | (c1, Some hasWritten1) =>
        listPolicy_loop D enclave pattern rest hasWritten1 c1
    | (c1, None) => (c1, None)
    end.
Proof.
  revert hasWritten c. induction pre as [|name pre IH]; intros hw c; simpl.
  - done.
  - destruct (pathMatch D pattern name); simpl; [|apply IH].
    run_act. destruct (GetPolicy enclave name) as [policy|e]; simpl.
    + destruct (write (rw c) (policyEntry name policy)) as [w1 [e1|]]; simpl.
      * done.
      * apply IH.
    + by destruct (write (rw c) (errorEntry e)).
Qed.

(** The loop over names whose metadata can all be fetched, on a connection
    that stays up. *)
Lemma loop_all_fetched enclave (pattern : string) (names : list string)
    (ps : list Policy) (hasWritten : bool) c :
  writesLeft (rw c) = None →
  Forall2 (λ name p, GetPolicy enclave name = Ok p)
    (List.filter (pathMatch D pattern) names) ps →
  ∃ c1 hasWritten1,
    listPolicy_loop D enclave pattern names hasWritten c
      = (c1, Some hasWritten1) ∧
    body (rw c1) =
      body (rw c) ++
      zip_with policyEntry (List.filter (pathMatch D pattern) names) ps ∧
    writesLeft (rw c1) = None ∧
    calls c1 =
      calls c ++ (CGetPolicy <$> List.filter (pathMatch D pattern) names).
Proof.
  revert ps hasWritten c.
  induction names as [|name names IH]; intros ps hw c Hup Hall; simpl in *.
  - inversion Hall; subst. exists c, hw. by rewrite !app_nil_r.
  - destruct (pathMatch D pattern name) eqn:Hmatch; simpl.
    + inversion Hall as [|? p ? ps' Hget Hrest]; subst.
      run_act. rewrite Hget. simpl.
      destruct (write_up (rw c) (policyEntry name p) Hup)
        as (w1 & -> & Hbody & Hup1). simpl.
      destruct (IH ps' true {| rw := w1; calls := calls c ++ [CGetPolicy name] |}
                  Hup1 Hrest) as (c1 & hw1 & -> & Hb & Hu & Hc).
      exists c1, hw1. simpl in *. split; [done|].
      rewrite Hb, Hbody, Hc, <- !app_assoc. done.
    + apply IH; done.
Qed.

(** The handler once the request has passed its checks and the enclave
    has returned an iterator: the loop, then the closing of the iterator. *)
Lemma list_after_open r c path enclave (it : PolicyIterator) :
  Method r = MethodGet →
  normalizeURL D (URLPath r) listPolicy_APIPath = Ok path →
  lookupEnclave (Vault config) (withPath r path) = Ok enclave →
  VerifyRequest enclave (withPath r path) = None →
  validatePattern D (argument D (withPath r path) listPolicy_APIPath) = None →
  ListPolicies enclave = Ok it →
  listPolicy_handler D config r c =
    match
      listPolicy_loop D enclave
        (argument D (withPath r path) listPolicy_APIPath) (iterNames it) false
        {| rw := setHeader (rw c) "Content-Type" "application/x-ndjson";
           calls := (calls c ++ [CVerifyRequest (withPath r path)]) ++
                    [CListPolicies] |}
    with
    | (c1, Some hasWritten) =>
        match iterClose it with
        | Some err =>
            {| rw := (write (rw c1) (errorEntry err)).1; calls := calls c1 |}
        | None =>
            if negb hasWritten
            then {| rw := WriteHeader (rw c1) StatusOK; calls := calls c1 |}
            else c1
        end
    | (c1, None) => c1
    end.
Proof.
  intros Hm Hn Hl Hv Hpat Hlist.
  unfold listPolicy_handler, serveWith. unfold mbind at 1. unfold Act_bind.
  rewrite (preamble_pass _ _ _ _ _ _ Hm Hn Hl Hv). simpl.
  run_act. rewrite Hpat. simpl. rewrite Hlist. simpl.
  destruct (listPolicy_loop _ _ _ _ _ _) as [c1 [hw|]]; simpl; [|done].
  destruct (iterClose it) as [e|]; simpl.
  - by destruct (write (rw c1) (errorEntry e)).
  - by destruct hw.
Qed.

(** C7, amended. For a GET request that passes URL normalization, the
    enclave lookup, [VerifyRequest] and the pattern check, and for which
    [ListPolicies] returns an iterator, as long as the writes to the client
    succeed: when the metadata of every listed policy matching the pattern
    can be fetched, the handler writes, in the iterator's order, one object
    per such policy whose name, created_at and created_by are the policy's
    name, creation time and creator and whose error is empty (followed by
    one error object when closing the iterator fails); when fetching fails
    for a matching policy, it writes the objects of the matching policies
    before that one, then a single object whose error is the message of the
    failure and whose other fields are empty, and nothing more. *)
Theorem list_policy_stream r c path enclave (it : PolicyIterator) :
  Method r = MethodGet →
  normalizeURL D (URLPath r) listPolicy_APIPath = Ok path →
  lookupEnclave (Vault config) (withPath r path) = Ok enclave →
  VerifyRequest enclave (withPath r path) = None →
  validatePattern D (argument D (withPath r path) listPolicy_APIPath) = None →
  ListPolicies enclave = Ok it →
  writesLeft (rw c) = None →
  let pattern := argument D (withPath r path) listPolicy_APIPath in
  let matching := List.filter (pathMatch D pattern) in
  let fetched := Forall2 (λ name p, GetPolicy enclave name = Ok p) in
  let entry := λ (name : string) (p : Policy),
    ListBody {| lrName := name; lrCreatedAt := CreatedAt p;
                lrCreatedBy := CreatedBy p; lrErr := EmptyString |} in
  let errorObject := λ (e : error),
    ListBody {| lrName := EmptyString; lrCreatedAt := 0;
                lrCreatedBy := EmptyString; lrErr := errMessage e |} in
  let c' := listPolicy_handler D config r c in
  (∀ ps,
     fetched (matching (iterNames it)) ps →
     body (rw c') =
       body (rw c) ++
       zip_with entry (matching (iterNames it)) ps ++
       match iterClose it with
       | Some err => [errorObject err]
       | None => []
       end) ∧
  (∀ pre name post err ps,
     iterNames it = pre ++ name :: post →
     pathMatch D pattern name = true →
     GetPolicy enclave name = Fail err →
     fetched (matching pre) ps →
     body (rw c') =
       body (rw c) ++ zip_with entry (matching pre) ps ++
       [errorObject err]).
Proof.
  intros Hm Hn Hl Hv Hpat Hlist Hup pattern matching fetched
    entry errorObject c'.
  assert (entry = policyEntry) as Hentry by reflexivity.
  assert (errorObject = errorEntry) as Herror by reflexivity.
  clearbody entry errorObject. subst entry errorObject.
  subst c'. rewrite (list_after_open _ c _ _ _ Hm Hn Hl Hv Hpat Hlist).
  fold pattern.
  set (c0 := {| rw := setHeader (rw c) "Content-Type" "application/x-ndjson";
                calls := _ |}).
  assert (writesLeft (rw c0) = None) as Hup0 by done.
  assert (body (rw c0) = body (rw c)) as Hbody0 by done.
  split.
  - intros ps Hall.
    destruct (loop_all_fetched enclave _ _ ps false c0 Hup0 Hall)
      as (c1 & hw1 & -> & Hb & Hu & _).
    fold matching in Hb.
    destruct (iterClose it) as [e|]; simpl.
    + destruct (write_up (rw c1) (errorEntry e) Hu) as (w2 & -> & Hb2 & _).
      simpl. rewrite Hb2, Hb, Hbody0, <- app_assoc. done.
    + rewrite app_nil_r, <- Hbody0, <- Hb.
      destruct hw1; simpl; [done|].
      unfold WriteHeader. by destruct (status (rw c1)).
  - intros pre name post err ps Hnames Hmatch Hget Hall.
    rewrite Hnames, loop_app.
    destruct (loop_all_fetched enclave _ _ ps false c0 Hup0 Hall)
      as (c1 & hw1 & -> & Hb & Hu & _).
    fold matching in Hb.
    simpl. rewrite Hmatch. simpl. run_act. rewrite Hget. simpl.
    destruct (write_up (rw c1) (errorEntry err) Hu) as (w2 & Hw & Hb2 & _).
    simpl in Hw. rewrite Hw. simpl.
    rewrite Hb2, Hb, Hbody0, <- app_assoc. done.
Qed.

(** *** The middleware of the routes *)

(** Five of the six routes wrap their handler in [proxy]; describePolicy
    does not. *)
Lemma routes_proxy :
  (λ route, (fst route, hasProxy (snd route))) <$> (policyRoutes D config).1 =
    [("/v1/policy/describe/", false); ("/v1/policy/assign/", true);
     ("/v1/policy/read/", true); ("/v1/policy/write/", true);
     ("/v1/policy/delete/", true); ("/v1/policy/list/", true)].
Proof. reflexivity. Qed.

(** What the describe route serves is its bare handler: the request
    reaches [VerifyRequest] with the identity of the TLS peer, proxy or
    not. *)
Lemma describe_serves_bare_handler (mux : ServeMux) r c :
  ∃ f,
    (describePolicy D config mux).1 =
      HandleFunc mux "/v1/policy/describe/" f ∧
    hasProxy f = false ∧
    serve D f r c = describePolicy_handler D config r c.
Proof. eexists. split; [reflexivity|]. split; reflexivity. Qed.

(** With [proxy] in the chain, the handler of a request that a proxy
    forwards runs on the forwarded identity. *)
Lemma read_serves_unwrapped (mux : ServeMux) r c id :
  inProxySet (Proxy config) (Identify r) = true →
  headerValue (proxyCertHeader (Proxy config)) (Headers r)
    ≫= forwardedIdentity D = Some id →
  ∃ f,
    (readPolicy D config mux).1 = HandleFunc mux "/v1/policy/read/" f ∧
    hasProxy f = true ∧
    serve D f r c = readPolicy_handler D config (withPeer r id) c.
Proof.
  intros Hin Hfwd. eexists. split; [reflexivity|]. split; [reflexivity|].
  simpl. unfold unwrapProxy. by rewrite Hin, Hfwd.
Qed.

End WithDeps.

(** *** The handlers on the small deployment *)

Import Fixture.

(** C1, witness: [root] binding itself is refused with 403. *)
Lemma self_assign_forbidden_witness :
  decodeAssign deps assignPolicy_MaxBody (Body selfAssign) = Ok "root" ∧
  Identify selfAssign = "root" ∧
  rw (assignPolicy_handler deps config selfAssign newConn) =
    Error newResponseWriter
      (NewError 403 "identity cannot assign policy to itself") ∧
  calls (assignPolicy_handler deps config selfAssign newConn) =
    [CVerifyRequest selfAssign] ∧
  ∀ name i,
    CAssignPolicy name i ∉
      calls (assignPolicy_handler deps config selfAssign newConn).
Proof.
  destruct (self_assign_forbidden deps config selfAssign newConn "root"
              eq_refl eq_refl) as [Hcalls Hresp].
  destruct (Hresp "/v1/policy/assign/ops" enclave
              eq_refl eq_refl eq_refl eq_refl eq_refl eq_refl) as [Hrw Hcs].
  split; [reflexivity|]. split; [reflexivity|].
  split; [exact Hrw|]. split; [exact Hcs|].
  intros name i Hin. apply Hcalls in Hin. inversion Hin.
Defined.

(** C1, as stated, fails: the same request sent with GET is answered with
    405, and the self-assignment of a caller without permission is answered
    with the error of [VerifyRequest]; in both the caller's identity is the
    identity of the body. *)
Lemma self_assign_not_always_403 :
  (decodeAssign deps assignPolicy_MaxBody (Body selfAssignGet)
     = Ok (Identify selfAssignGet) ∧
   status (rw (assignPolicy_handler deps config selfAssignGet newConn))
     = Some 405%Z ∧
   rw (assignPolicy_handler deps config selfAssignGet newConn) ≠
     Error newResponseWriter
       (NewError 403 "identity cannot assign policy to itself")) ∧
  (decodeAssign deps assignPolicy_MaxBody (Body selfAssignDenied)
     = Ok (Identify selfAssignDenied) ∧
   body (rw (assignPolicy_handler deps config selfAssignDenied newConn))
     = [ErrorBody "not authorized: insufficient permissions"] ∧
   rw (assignPolicy_handler deps config selfAssignDenied newConn) ≠
     Error newResponseWriter
       (NewError 403 "identity cannot assign policy to itself")).
Proof. repeat split; try reflexivity; discriminate. Qed.

(** C8, witness: binding the unknown identity is refused with 400. *)
Lemma unknown_identity_rejected_witness :
  decodeAssign deps assignPolicy_MaxBody (Body assignUnknown)
    = Ok EmptyString ∧
  IsUnknown deps EmptyString = true ∧
  rw (assignPolicy_handler deps config assignUnknown newConn) =
    Error newResponseWriter (NewError 400 "identity is unknown") ∧
  calls (assignPolicy_handler deps config assignUnknown newConn) =
    [CVerifyRequest assignUnknown] ∧
  ∀ name i,
    CAssignPolicy name i ∉
      calls (assignPolicy_handler deps config assignUnknown newConn).
Proof.
  destruct (unknown_identity_rejected deps config assignUnknown newConn
              EmptyString eq_refl eq_refl) as [Hcalls Hresp].
  destruct (Hresp "/v1/policy/assign/ops" enclave
              eq_refl eq_refl eq_refl eq_refl eq_refl) as [Hrw Hcs].
  split; [reflexivity|]. split; [reflexivity|].
  split; [exact Hrw|]. split; [exact Hcs|].
  intros name i Hin. apply Hcalls in Hin. inversion Hin.
Defined.

(** C8, as stated, fails: a DELETE request whose body decodes to the unknown
    identity is answered with 405, and a POST of a caller without permission
    with the 403 of [VerifyRequest]. *)
Lemma unknown_identity_not_always_400 :
  (decodeAssign deps assignPolicy_MaxBody (Body assignUnknownDelete)
     = Ok EmptyString ∧
   IsUnknown deps EmptyString = true ∧
   status (rw (assignPolicy_handler deps config assignUnknownDelete newConn))
     = Some 405%Z ∧
   status (rw (assignPolicy_handler deps config assignUnknownDelete newConn))
     ≠ Some 400%Z) ∧
  (decodeAssign deps assignPolicy_MaxBody (Body assignUnknownDenied)
     = Ok EmptyString ∧
   status (rw (assignPolicy_handler deps config assignUnknownDenied newConn))
     = Some 403%Z ∧
   status (rw (assignPolicy_handler deps config assignUnknownDenied newConn))
     ≠ Some 400%Z).
Proof. repeat split; try reflexivity; discriminate. Qed.

(** C3, as stated, fails: the route of [assignPolicy] is not
    /v1/identity/assign/, and the policy API registers no pattern under
    /v1/identity/ at all. *)
Lemma assign_route_not_under_identity :
  apiPath (assignPolicy deps config []).2 ≠ "/v1/identity/assign/" ∧
  fst <$> (assignPolicy deps config []).1 ≠ ["/v1/identity/assign/"] ∧
  List.filter (λ route, String.prefix "/v1/identity/" (fst route))
    (policyRoutes deps config).1 = [].
Proof. repeat split; try reflexivity; discriminate. Qed.

(** C3, witness: [root] binds [alice] to [ops] with a POST to
    /v1/policy/assign/ops; sent with GET the request is refused. *)
Lemma assign_route_witness :
  apiPath (assignPolicy deps config []).2 = "/v1/policy/assign/" ∧
  apiMaxBody (assignPolicy deps config []).2 = 1024%Z ∧
  assignPolicy_handler deps config assignAlice newConn =
    {| rw := WriteHeader newResponseWriter 200;
       calls := [CVerifyRequest assignAlice; CAssignPolicy "ops" "alice"] |} ∧
  status (rw (assignPolicy_handler deps config selfAssignGet newConn)) =
    Some 405%Z.
Proof.
  destruct (assign_route deps config []) as (Hreg & Hmethod & Hserve).
  split; [by rewrite Hreg|]. split; [by rewrite Hreg|]. split.
  - apply (Hserve assignAlice newConn "/v1/policy/assign/ops" enclave "alice");
      try reflexivity.
    discriminate.
  - rewrite (Hmethod selfAssignGet newConn); [reflexivity|discriminate].
Defined.

(** C7, witness: [root] lists the policies matching d* on the larger
    deployment. With three policies that can all be fetched, the two whose
    name starts with d get an object and [ops] gets none; with a fourth,
    [dead], whose metadata cannot be fetched, [dev] gets its object, then
    comes the error object, and [doc] gets none. *)
Lemma list_policy_stream_witness :
  (Method listD = MethodGet ∧
   normalizeURL globDeps (URLPath listD) listPolicy_APIPath
     = Ok "/v1/policy/list/d*" ∧
   VerifyRequest teamEnclave listD = None ∧
   validatePattern globDeps "d*" = None ∧
   writesLeft (rw newConn) = None) ∧
  body (rw (listPolicy_handler globDeps smallTeamConfig listD newConn)) =
    [ListBody {| lrName := "dev"; lrCreatedAt := 22; lrCreatedBy := "alice";
                 lrErr := EmptyString |};
     ListBody {| lrName := "doc"; lrCreatedAt := 33; lrCreatedBy := "root";
                 lrErr := EmptyString |}] ∧
  body (rw (listPolicy_handler globDeps teamConfig listD newConn)) =
    [ListBody {| lrName := "dev"; lrCreatedAt := 22; lrCreatedBy := "alice";
                 lrErr := EmptyString |};
     ListBody {| lrName := EmptyString; lrCreatedAt := 0;
                 lrCreatedBy := EmptyString;
                 lrErr := "policy does not exist" |}].
Proof.
  split; [repeat split|]. split.
  - destruct (list_policy_stream globDeps smallTeamConfig listD newConn
                "/v1/policy/list/d*" smallTeamEnclave
                (mkPolicyIterator ["dev"; "ops"; "doc"] None)
                eq_refl eq_refl eq_refl eq_refl eq_refl eq_refl eq_refl)
      as [Hall _].
    apply (Hall [mkPolicy [] [] 22 "alice"; mkPolicy [] [] 33 "root"]).
    repeat constructor.
  - destruct (list_policy_stream globDeps teamConfig listD newConn
                "/v1/policy/list/d*" teamEnclave
                (mkPolicyIterator ["ops"; "dev"; "dead"; "doc"] None)
                eq_refl eq_refl eq_refl eq_refl eq_refl eq_refl eq_refl)
      as [_ Hfail].
    apply (Hfail ["ops"; "dev"] "dead" ["doc"] errPolicyNotFound
             [mkPolicy [] [] 22 "alice"]); try reflexivity.
    repeat constructor.
Defined.

(** C7, as stated, fails: [root], who is authorized, lists all policies of
    an enclave that holds [ops] and [dev], both matching the pattern and both
    with metadata that can be fetched, on a connection that accepts one more
    write. The handler writes the object of [ops], the write of the object of
    [dev] fails and the handler returns: [dev] gets no object, and no error
    object is written. *)
Lemma list_policy_stream_cut_short :
  Method listAll = MethodGet ∧
  VerifyRequest enclave listAll = None ∧
  ListPolicies enclave = Ok (mkPolicyIterator ["ops"; "dev"] None) ∧
  pathMatch deps "*" "ops" = true ∧
  pathMatch deps "*" "dev" = true ∧
  GetPolicy enclave "ops" = Ok (mkPolicy [] [] 11 "root") ∧
  GetPolicy enclave "dev" = Ok (mkPolicy [] [] 22 "alice") ∧
  body (rw (listPolicy_handler deps config listAll lastWrite)) =
    [ListBody {| lrName := "ops"; lrCreatedAt := 11; lrCreatedBy := "root";
                 lrErr := EmptyString |}] ∧
  calls (listPolicy_handler deps config listAll lastWrite) =
    [CVerifyRequest listAll; CListPolicies; CGetPolicy "ops";
     CGetPolicy "dev"] ∧
  body (rw (listPolicy_handler deps config listAll lastWrite)) ≠
    [ListBody {| lrName := "ops"; lrCreatedAt := 11; lrCreatedBy := "root";
                 lrErr := EmptyString |};
     ListBody {| lrName := "dev"; lrCreatedAt := 22; lrCreatedBy := "alice";
                 lrErr := EmptyString |}].
Proof. repeat split; try reflexivity; discriminate. Qed.

(** C2, at the failing input: the proxy [nginx] forwards a request of
    [root]. On the describe route the request is verified under the
    identity of the proxy and refused; on the read route the same request is
    verified under the forwarded identity and served. *)
Theorem describe_ignores_forwarded_identity :
  ∃ f g,
    (describePolicy deps config []).1 = [("/v1/policy/describe/", f)] ∧
    (readPolicy deps config []).1 = [("/v1/policy/read/", g)] ∧
    hasProxy f = false ∧
    hasProxy g = true ∧
    serve deps f (viaProxy "/v1/policy/describe/ops") newConn =
      {| rw := Error newResponseWriter errNotAllowed;
         calls := [CVerifyRequest (viaProxy "/v1/policy/describe/ops")] |} ∧
    Identify (viaProxy "/v1/policy/describe/ops") = "nginx" ∧
    calls (serve deps g (viaProxy "/v1/policy/read/ops") newConn) =
      [CVerifyRequest (withPeer (viaProxy "/v1/policy/read/ops") "root");
       CGetPolicy "ops"] ∧
    status (rw (serve deps g (viaProxy "/v1/policy/read/ops") newConn)) =
      Some 200%Z.
Proof. eexists _, _. repeat split. Qed.

End PolicyAPISpec.

(** ** Further properties of package mem *)

Module MemProps.
Import Mem MemSpec.

Section WithKey.

Context {Key : Type} (zeroKey : Key).

Implicit Types (s : @Store Key) (m : @gomap Key) (i : iterator)
  (ρ : @RangeOrder Key) (name other : string) (k : Key).

Lemma Create_ok_inv s name k s' :
  Create s name k = Done (s', None) →
  map_index (store s) name = None ∧
  s' = {| store := Some (<[name := k]> (contents (store s))) |}.
Proof.
  destruct (map_index (store s) name) as [k0|] eqn:E.
  - rewrite (Create_present _ _ _ _ E). discriminate.
  - rewrite (Create_absent _ _ _ E). by intros [= <-].
Qed.

Lemma absent_iff_not_found s name :
  (Get zeroKey s name).2 = Some ErrKeyNotFound ↔
  map_index (store s) name = None.
Proof.
  rewrite Get_index. by destruct (map_index (store s) name).
Qed.

(** X1. [Create(name, _)] and [Delete(name)] leave the entry of every other
    name as it is, whether they succeed or not. *)
Theorem other_names_untouched s name k other :
  other ≠ name →
  (∃ s' err,
     Create s name k = Done (s', err) ∧
     Get zeroKey s' other = Get zeroKey s other) ∧
  Get zeroKey (Delete s name).1 other = Get zeroKey s other.
Proof.
  intros Hne. split.
  - destruct (map_index (store s) name) as [k0|] eqn:E.
    + exists s, (Some ErrKeyExists). split; [by eapply Create_present|done].
    + eexists _, None. split; [by apply Create_absent|].
      rewrite !Get_index. unfold map_index at 1. simpl.
      by rewrite lookup_insert_ne.
  - rewrite !Get_index. unfold map_index at 1. simpl.
    by rewrite contents_map_delete, lookup_delete_ne.
Qed.

(** X2. Once [Create(name, k1)] has succeeded, a second [Create] under the same
    name fails with [ErrKeyExists], changes nothing, and [Get] still returns
    the first key. *)
Theorem first_create_wins s name k1 k2 s1 :
  Create s name k1 = Done (s1, None) →
  Create s1 name k2 = Done (s1, Some ErrKeyExists) ∧
  Get zeroKey s1 name = (k1, None).
Proof.
  intros [_ ->]%Create_ok_inv.
  assert (map_index (Some (<[name := k1]> (contents (store s)))) name
          = Some k1) as Hidx.
  { unfold map_index. simpl. apply lookup_insert_eq. }
  split.
  - by eapply Create_present.
  - rewrite Get_index. simpl. by rewrite Hidx.
Qed.

(** X3. Replacing a key: after [Delete(name)], [Create(name, k)] succeeds on
    every store and [Get(name)] returns the new key. *)
Theorem delete_then_create s name k :
  ∃ s',
    Create (Delete s name).1 name k = Done (s', None) ∧
    Get zeroKey s' name = (k, None).
Proof.
  assert (map_index (store (Delete s name).1) name = None) as Habs.
  { unfold map_index. simpl.
    by rewrite contents_map_delete, lookup_delete_eq. }
  eexists. split; [by apply Create_absent|].
  rewrite Get_index. unfold map_index. simpl.
  by rewrite lookup_insert_eq.
Qed.

(** X4. Creating a key under a name the store does not hold and deleting it
    again gives back the entries the store had: every [Get] returns what it
    returned before. *)
Theorem create_then_delete s name k :
  (Get zeroKey s name).2 = Some ErrKeyNotFound →
  ∃ s1,
    Create s name k = Done (s1, None) ∧
    contents (store (Delete s1 name).1) = contents (store s) ∧
    ∀ other, Get zeroKey (Delete s1 name).1 other = Get zeroKey s other.
Proof.
  intros Habs%absent_iff_not_found.
  eexists. split; [by apply Create_absent|].
  assert (contents
            (store (Delete {| store := Some (<[name:=k]> (contents (store s))) |}
                      name).1) = contents (store s)) as Hc.
  { simpl. by rewrite delete_insert_id. }
  split; [done|].
  intros other. rewrite !Get_index. unfold map_index. by rewrite Hc.
Qed.

(** *** Listing *)

Lemma List_perm ρ s :
  values (List ρ s).1 ≡ₚ elements (dom (contents (store s))).
Proof. rewrite List_values. simpl. apply range_keys_perm. Qed.

(** X5. A listing taken after a successful [Create(name, _)] holds [name] and
    the names a listing taken before it holds, whatever the orders. *)
Theorem list_after_create ρ ρ' s name k s' :
  Create s name k = Done (s', None) →
  values (List ρ' s').1 ≡ₚ name :: values (List ρ s).1.
Proof.
  intros [Habs ->]%Create_ok_inv.
  rewrite !List_perm. simpl. rewrite dom_insert_L.
  apply elements_union_singleton.
  by apply not_elem_of_dom.
Qed.

(** X6. A listing taken after [Delete(name)] holds the names a listing taken
    before it holds, without [name]. *)
Theorem list_after_delete ρ ρ' s name :
  values (List ρ' (Delete s name).1).1 ≡ₚ
    filter (λ n, n ≠ name) (values (List ρ s).1).
Proof.
  apply NoDup_Permutation.
  - rewrite List_perm. apply NoDup_elements.
  - apply NoDup_filter. rewrite List_perm. apply NoDup_elements.
  - intros n. rewrite list_elem_of_filter, !List_perm, !elem_of_elements.
    simpl. rewrite contents_map_delete, dom_delete_L.
    rewrite elem_of_difference, elem_of_singleton. tauto.
Qed.

(** X7. The number of names of a listing is the number of entries of the map,
    the capacity [List] allocates for them. *)
Theorem list_length ρ s :
  length (values (List ρ s).1) = map_len (store s).
Proof.
  rewrite List_perm. unfold map_len.
  transitivity (size (dom (contents (store s)))); [done|].
  apply size_dom.
Qed.

(** *** Calls on different names commute *)

(** X8. Two [Delete] calls commute. For different names, two [Create] calls
    return the same errors and leave the same store in either order, and so
    do a [Create] and a [Delete]. *)
Theorem calls_commute s n1 n2 k1 k2 :
  n1 ≠ n2 →
  Delete (Delete s n1).1 n2 = Delete (Delete s n2).1 n1 ∧
  (∃ s1 s2 s' e1 e2,
     Create s n1 k1 = Done (s1, e1) ∧ Create s1 n2 k2 = Done (s', e2) ∧
     Create s n2 k2 = Done (s2, e2) ∧ Create s2 n1 k1 = Done (s', e1)) ∧
  (∃ s1 s' e1,
     Create s n1 k1 = Done (s1, e1) ∧
     Create (Delete s n2).1 n1 k1 = Done (s', e1) ∧
     (Delete s1 n2).1 = s').
Proof.
  intros Hne. split; [|split].
  - unfold Delete. simpl. do 2 f_equal.
    destruct (store s) as [g|]; simpl; [|done].
    by rewrite delete_delete.
  - destruct (map_index (store s) n1) as [a1|] eqn:E1;
      destruct (map_index (store s) n2) as [a2|] eqn:E2.
    + exists s, s, s, (Some ErrKeyExists), (Some ErrKeyExists).
      repeat split; by eapply Create_present.
    + eexists s, _, _, (Some ErrKeyExists), None.
      split; [by eapply Create_present|].
      split; [by apply Create_absent|].
      split; [by apply Create_absent|].
      eapply Create_present. unfold map_index. simpl.
      rewrite lookup_insert_ne by done. exact E1.
    + eexists _, s, _, None, (Some ErrKeyExists).
      split; [by apply Create_absent|].
      split; [|split; [by eapply Create_present|by apply Create_absent]].
      eapply Create_present. unfold map_index. simpl.
      rewrite lookup_insert_ne by done. exact E2.
    + eexists _, _, _, None, None.
      split; [by apply Create_absent|].
      split; [apply Create_absent; unfold map_index; simpl;
              by rewrite lookup_insert_ne|].
      split; [by apply Create_absent|].
      rewrite Create_absent.
      * simpl. by rewrite insert_insert_ne.
      * unfold map_index. simpl. by rewrite lookup_insert_ne.
  - assert (map_index (store (Delete s n2).1) n1 = map_index (store s) n1)
      as Hsame.
    { unfold map_index. simpl.
      by rewrite contents_map_delete, lookup_delete_ne. }
    destruct (map_index (store s) n1) as [a1|] eqn:E1.
    + eexists s, _, (Some ErrKeyExists).
      split; [by eapply Create_present|].
      split; [by eapply Create_present|done].
    + eexists _, _, None.
      split; [by apply Create_absent|].
      split; [by apply Create_absent|].
      simpl. rewrite contents_map_delete. by rewrite delete_insert_ne.
Qed.

(** *** Every [Get] of a history *)

Lemma run_get_event (ops : list Op) s0 s before after name k err :
  run zeroKey s0 ops = Done (s, before ++ EvGet name k err :: after) →
  (k, err) =
    match track name (map_index (store s0) name) before with
    | Some k' => (k', None)
    | None => (zeroKey, Some ErrKeyNotFound)
    end.
Proof.
  revert s0 before.
  induction ops as [|op ops IH]; intros s0 before; simpl.
  - intros [= _ Hnil]. by destruct before.
  - destruct (exec zeroKey s0 op) as [[s1 ev]|] eqn:E1; [|done].
    destruct (run zeroKey s1 ops) as [[s2 evs]|] eqn:E2; [|done].
    intros [= -> Hevs]. destruct before as [|ev0 before]; simpl in Hevs.
    + injection Hevs as -> ->. simpl.
      destruct op as [| n a | n | n | ρ]; simpl in E1.
      * done.
      * by destruct (Create s0 n a) as [[? ?]|].
      * done.
      * destruct (Get zeroKey s0 n) as [a e] eqn:EG.
        injection E1 as <- <- <- <-. by rewrite <- Get_index.
      * done.
    + injection Hevs as -> ->. simpl.
      rewrite <- (exec_index zeroKey _ _ _ _ name E1).
      by apply (IH s1 before).
Qed.

(** X9. In every history of calls on a fresh store, each [Get(name)] returns the
    key of the most recent successful [Create(name, _)] before it that no
    [Delete(name)] follows, and fails with [ErrKeyNotFound] when there is
    none. *)
Theorem gets_follow_history (ops : list Op) s before after name k err :
  run zeroKey zeroStore ops = Done (s, before ++ EvGet name k err :: after) →
  (last_create name k before ∧ err = None) ∨
  ((∀ k', ¬ last_create name k' before) ∧
   k = zeroKey ∧ err = Some ErrKeyNotFound).
Proof.
  intros Hrun%run_get_event.
  change (map_index (store zeroStore) name) with (@None Key) in Hrun.
  destruct (track name None before) as [k'|] eqn:E.
  - left. injection Hrun as -> ->. split; [|done].
    by apply track_last_create.
  - right. injection Hrun as -> ->. split; [|done].
    intros k' Hk'. by rewrite (last_create_track _ _ None _ Hk') in E.
Qed.

(** *** The iterator after some calls of [Next] *)

(** X10. After [n] calls of [Next] the iterator holds the names but the first
    [n]; [Name] is the last of the names passed, or what it was when none
    was; and one more [Next] returns true exactly while names are left. *)
Theorem advance_spec (n : nat) i :
  values (advance n i) = drop n (values i) ∧
  Name (advance n i) = default (Name i) (list.last (take n (values i))) ∧
  (Next (advance n i)).1 = bool_decide (n < length (values i)).
Proof.
  revert i. induction n as [|n IH]; intros i.
  - simpl. split; [done|]. split; [done|].
    unfold Next. destruct (values i) as [|v rest]; [done|].
    symmetry. apply bool_decide_eq_true_2. simpl. lia.
  - simpl. destruct (IH (Next i).2) as (Hv & Hn & Hb).
    rewrite Hv, Hn, Hb. unfold Next.
    destruct (values i) as [|v rest] eqn:Ev; simpl.
    + rewrite Ev. simpl. rewrite take_nil, drop_nil. simpl. done.
    + split; [done|]. split.
      * unfold Name. simpl. destruct (take n rest) as [|x l] eqn:Et; simpl.
        -- done.
        -- destruct (list.last (x :: l)) as [y|] eqn:El; simpl; [done|].
           by apply last_None in El.
      * apply bool_decide_ext. lia.
Qed.

End WithKey.

(** *** On concrete stores, with numbers as keys *)

(** X1, on a concrete input. *)
Lemma other_names_untouched_witness :
  "b" ≠ "a" ∧
  (∃ s' err,
     Create {| store := Some {["b" := 2%Z]} |} "a" 1%Z = Done (s', err) ∧
     Get 0%Z s' "b" = (2%Z, None)) ∧
  Get 0%Z (Delete {| store := Some {["b" := 2%Z]} |} "a").1 "b" = (2%Z, None).
Proof.
  assert ("b" ≠ "a") as Hne by discriminate.
  split; [exact Hne|].
  exact (other_names_untouched 0%Z {| store := Some {["b" := 2%Z]} |}
           "a" 1%Z "b" Hne).
Defined.

(** X2, on a concrete input. *)
Lemma first_create_wins_witness :
  Create (@zeroStore Z) "a" 1%Z
    = Done ({| store := Some {["a" := 1%Z]} |}, None) ∧
  Create {| store := Some {["a" := 1%Z]} |} "a" 2%Z
    = Done ({| store := Some {["a" := 1%Z]} |}, Some ErrKeyExists) ∧
  Get 0%Z {| store := Some {["a" := 1%Z]} |} "a" = (1%Z, None).
Proof.
  split; [reflexivity|].
  exact (first_create_wins 0%Z zeroStore "a" 1%Z 2%Z _ eq_refl).
Defined.

(** X4, on a concrete input. *)
Lemma create_then_delete_witness :
  (Get 0%Z {| store := Some {["b" := 2%Z]} |} "a").2 = Some ErrKeyNotFound ∧
  ∃ s1,
    Create {| store := Some {["b" := 2%Z]} |} "a" 1%Z = Done (s1, None) ∧
    contents (store (Delete s1 "a").1) = {["b" := 2%Z]} ∧
    ∀ other,
      Get 0%Z (Delete s1 "a").1 other =
      Get 0%Z {| store := Some {["b" := 2%Z]} |} other.
Proof.
  split; [reflexivity|].
  exact (create_then_delete 0%Z {| store := Some {["b" := 2%Z]} |}
           "a" 1%Z eq_refl).
Defined.

(** X5, on a concrete input. *)
Lemma list_after_create_witness :
  Create {| store := Some {["b" := 2%Z]} |} "a" 1%Z
    = Done ({| store := Some (<["a" := 1%Z]> {["b" := 2%Z]}) |}, None) ∧
  values
    (List sorted_order {| store := Some (<["a" := 1%Z]> {["b" := 2%Z]}) |}).1
    ≡ₚ "a" :: values (List sorted_order {| store := Some {["b" := 2%Z]} |}).1.
Proof.
  split; [reflexivity|].
  exact (list_after_create sorted_order sorted_order
           {| store := Some {["b" := 2%Z]} |} "a" 1%Z _ eq_refl).
Defined.

(** X8, on a concrete input. *)
Lemma calls_commute_witness :
  "a" ≠ "b" ∧
  Delete (Delete (@zeroStore Z) "a").1 "b" =
    Delete (Delete (@zeroStore Z) "b").1 "a" ∧
  (∃ s1 s2 s' e1 e2,
     Create (@zeroStore Z) "a" 1%Z = Done (s1, e1) ∧
     Create s1 "b" 2%Z = Done (s', e2) ∧
     Create (@zeroStore Z) "b" 2%Z = Done (s2, e2) ∧
     Create s2 "a" 1%Z = Done (s', e1)) ∧
  (∃ s1 s' e1,
     Create (@zeroStore Z) "a" 1%Z = Done (s1, e1) ∧
     Create (Delete (@zeroStore Z) "b").1 "a" 1%Z = Done (s', e1) ∧
     (Delete s1 "b").1 = s').
Proof.
  assert ("a" ≠ "b") as Hne by discriminate.
  split; [exact Hne|].
  exact (calls_commute (@zeroStore Z) "a" "b" 1%Z 2%Z Hne).
Defined.

(** X9, on a concrete input. *)
Lemma gets_follow_history_witness :
  run 0%Z zeroStore [OpCreate "a" 1%Z; OpGet "a"; OpDelete "a"]
    = Done ({| store := Some (delete "a" (<["a" := 1%Z]> ∅)) |},
            [EvCreate "a" 1%Z None] ++
            EvGet "a" 1%Z None :: [EvDelete "a" None]) ∧
  ((last_create "a" 1%Z [EvCreate "a" 1%Z None] ∧ @None kesError = None) ∨
   ((∀ k', ¬ last_create "a" k' [EvCreate "a" 1%Z None]) ∧
    1%Z = 0%Z ∧ @None kesError = Some ErrKeyNotFound)).
Proof.
  split; [reflexivity|].
  exact (gets_follow_history 0%Z
           [OpCreate "a" 1%Z; OpGet "a"; OpDelete "a"] _
           [EvCreate "a" 1%Z None] [EvDelete "a" None] "a" 1%Z None eq_refl).
Defined.

End MemProps.

(** ** Further properties of the policy API *)

Module PolicyAPIProps.
Import PolicyAPI PolicyAPISpec.

Section WithDeps.

Context (D : Deps) (config : ServerConfig).

Implicit Types (r : Request) (c : Conn) (w : ResponseWriter) (err : error)
  (enclave : Enclave) (id : Identity) (P : Call → Prop).

Ltac run_act :=
  unfold serveWith, abort, try, check, call, onWriter, leave, Encode,
    mbind, mret, Act_bind, Act_ret; simpl.

(** *** What an action logs *)

Lemma logs_nothing {A} P (m : Act A) :
  (∀ c c' o, m c = (c', o) → calls c' = calls c) → logs P m.
Proof.
  intros Hm c c' o Hrun. exists []. rewrite app_nil_r.
  split; [by eapply Hm|constructor].
Qed.

Lemma logs_ret {A} P (a : A) : logs P (mret a).
Proof. apply logs_nothing. by intros c c' o [= <- _]. Qed.

Lemma logs_leave {A} P : logs P (@leave A).
Proof. apply logs_nothing. by intros c c' o [= <- _]. Qed.

Lemma logs_onWriter P f : logs P (onWriter f).
Proof. apply logs_nothing. by intros c c' o [= <- _]. Qed.

Lemma logs_abort {A} P err : logs P (@abort A err).
Proof. apply logs_nothing. by intros c c' o [= <- _]. Qed.

Lemma logs_Encode P ch : logs P (Encode ch).
Proof.
  apply logs_nothing. intros c c' o. unfold Encode.
  destruct (write (rw c) ch). by intros [= <- _].
Qed.

Lemma logs_try {A} P (x : result A) : logs P (try x).
Proof. destruct x; [apply logs_ret|apply logs_abort]. Qed.

Lemma logs_check P (e : option error) : logs P (check e).
Proof. destruct e; [apply logs_abort|apply logs_ret]. Qed.

Lemma logs_call P cl : P cl → logs P (call cl).
Proof.
  intros Hcl c c' o [= <- _]. exists [cl]. split; [done|].
  by repeat constructor.
Qed.

Lemma logs_bind {A B} P (m : Act A) (f : A → Act B) :
  logs P m → (∀ a, logs P (f a)) → logs P (m ≫= f).
Proof.
  intros Hm Hf c c' o. unfold mbind, Act_bind.
  destruct (m c) as [c1 [a|]] eqn:E1.
  - intros E2. destruct (Hm _ _ _ E1) as (l1 & H1 & F1).
    destruct (Hf a _ _ _ E2) as (l2 & H2 & F2).
    exists (l1 ++ l2). rewrite H2, H1, <- app_assoc.
    split; [done|]. by apply Forall_app.
  - intros [= <- _]. by apply (Hm _ _ _ E1).
Qed.

Lemma logs_serve P (m : Act unit) c :
  logs P m → ∃ l, calls (serveWith m c) = calls c ++ l ∧ Forall P l.
Proof.
  intros Hm. unfold serveWith. destruct (m c) as [c' o] eqn:E.
  by apply (Hm _ _ _ E).
Qed.

Lemma logs_preamble P (M Pth : string) r :
  (∀ r', P (CVerifyRequest r')) → logs P (preamble D config M Pth r).
Proof.
  intros HP c c' o [[rs Hrs] _]%preamble_inv.
  exists (CVerifyRequest <$> rs). split; [done|].
  apply Forall_fmap, Forall_forall. intros r' _. apply HP.
Qed.

Lemma logs_loop P enclave (pattern : string) (names : list string)
    (hasWritten : bool) :
  (∀ name, name ∈ names → pathMatch D pattern name = true →
           P (CGetPolicy name)) →
  logs P (listPolicy_loop D enclave pattern names hasWritten).
Proof.
  revert hasWritten. induction names as [|name names IH]; intros hw HP; simpl.
  - apply logs_ret.
  - assert (∀ hw', logs P (listPolicy_loop D enclave pattern names hw'))
      as IH'.
    { intros hw'. apply IH. intros n Hn. apply HP. by right. }
    destruct (pathMatch D pattern name) eqn:Hm; simpl; [|apply IH'].
    apply logs_bind; [apply logs_call, HP; [by left|done]|]. intros _.
    destruct (GetPolicy enclave name) as [policy|e].
    + apply logs_bind; [apply logs_Encode|]. intros [e|];
        [apply logs_leave|apply IH'].
    + apply logs_bind; [apply logs_Encode|]. intros _. apply logs_leave.
Qed.

(** Composition of the facts above along the body of a handler. *)
Ltac logs_step :=
  first
    [ apply logs_ret | apply logs_leave | apply logs_onWriter
    | apply logs_abort | apply logs_Encode | apply logs_try
    | apply logs_check | apply logs_call; done
    | apply logs_preamble; done
    | apply logs_loop; done
    | apply logs_bind; [|intros ?] ].

Ltac logs_body :=
  repeat first
    [ logs_step
    | match goal with
      | |- logs _ (match ?x with _ => _ end) => destruct x
      | |- logs _ (if ?b then _ else _) => destruct b
      | |- logs _ (let '(_, _) := ?x in _) => destruct x
      end ].

(** *** Routes that only read *)

(** X11. The handlers of describe, read and list make no call on the enclave
    other than [VerifyRequest], [GetPolicy] and [ListPolicies]: whatever the
    request, they do not change policies or assignments. *)
Theorem read_routes_never_mutate :
  Forall
    (λ h : HandlerFunc,
       ∀ r c, ∃ l, calls (h r c) = calls c ++ l ∧ Forall readOnly l)
    [describePolicy_handler D config; readPolicy_handler D config;
     listPolicy_handler D config].
Proof.
  repeat constructor; intros r c; apply logs_serve; logs_body.
Qed.

(** *** The opening as a gate *)

(** The three ways the opening of a handler ends: it returns without a call
    on the enclave, it returns after a [VerifyRequest] that failed, or it
    passes. *)
Lemma preamble_outcome (M Pth : string) r c c' o :
  preamble D config M Pth r c = (c', o) →
  (o = None ∧ calls c' = calls c) ∨
  (o = None ∧ ∃ path, calls c' = calls c ++ [CVerifyRequest (withPath r path)]) ∨
  (∃ path enclave,
     passes D config M Pth r path enclave ∧
     o = Some (withPath r path, enclave) ∧
     c' = {| rw := rw c;
             calls := calls c ++ [CVerifyRequest (withPath r path)] |}).
Proof.
  destruct (decide (Method r = M)) as [Hm|Hm].
  - destruct (normalizeURL D (URLPath r) Pth) as [path|e] eqn:Hn.
    + destruct (lookupEnclave (Vault config) (withPath r path))
        as [enclave|e] eqn:Hl.
      * destruct (VerifyRequest enclave (withPath r path)) as [e|] eqn:Hv.
        -- unfold preamble. rewrite (eqb_string_true _ _ Hm). simpl.
           run_act. rewrite Hn. simpl. rewrite Hl. simpl. rewrite Hv.
           intros [= <- <-]. right. left. split; [done|]. by exists path.
        -- rewrite (preamble_pass D config _ _ _ _ _ _ Hm Hn Hl Hv).
           intros [= <- <-]. right. right. by exists path, enclave.
      * unfold preamble. rewrite (eqb_string_true _ _ Hm). simpl.
        run_act. rewrite Hn. simpl. rewrite Hl. simpl.
        intros [= <- <-]. by left.
    + unfold preamble. rewrite (eqb_string_true _ _ Hm). simpl.
      run_act. rewrite Hn. simpl. intros [= <- <-]. by left.
  - rewrite (preamble_wrong_method D config _ _ _ _ Hm).
    intros [= <- <-]. by left.
Qed.

Lemma gate (M Pth : string) (rest : Request * Enclave → Act unit) r c :
  (∀ a, logs (λ _, True) (rest a)) →
  ∃ l,
    calls (serveWith (preamble D config M Pth r ≫= rest) c) = calls c ++ l ∧
    (l = [] ∨
     ∃ r' l',
       l = CVerifyRequest r' :: l' ∧
       Identify r' = Identify r ∧ Body r' = Body r ∧
       (l' ≠ [] →
        ∃ enclave,
          lookupEnclave (Vault config) r' = Ok enclave ∧
          VerifyRequest enclave r' = None)).
Proof.
  intros Hrest. unfold serveWith, mbind, Act_bind.
  destruct (preamble D config M Pth r c) as [c1 o] eqn:Hpre.
  apply preamble_outcome in Hpre
    as [[-> Hc]|[[-> [path Hc]]|(path & enclave & Hpass & -> & ->)]].
  - exists []. rewrite app_nil_r. split; [done|]. by left.
  - eexists. split; [exact Hc|]. right.
    exists (withPath r path), []. by repeat split.
  - destruct (rest (withPath r path, enclave) _) as [c2 o2] eqn:E.
    destruct (Hrest _ _ _ _ E) as (l2 & H2 & _). simpl in *.
    exists (CVerifyRequest (withPath r path) :: l2).
    split; [by rewrite H2, <- app_assoc|].
    right. exists (withPath r path), l2. repeat split; try done.
    intros _. exists enclave. by destruct Hpass as (_ & _ & ? & ?).
Qed.

(** X12. Whatever the request, the first call a handler makes on the enclave is
    [VerifyRequest], on the request of the same caller and body; and it
    makes a further call only if the enclave was found and [VerifyRequest]
    returned nil. *)
Theorem operations_need_authorization :
  Forall
    (λ h : HandlerFunc,
       ∀ r c, ∃ l,
         calls (h r c) = calls c ++ l ∧
         (l = [] ∨
          ∃ r' l',
            l = CVerifyRequest r' :: l' ∧
            Identify r' = Identify r ∧ Body r' = Body r ∧
            (l' ≠ [] →
             ∃ enclave,
               lookupEnclave (Vault config) r' = Ok enclave ∧
               VerifyRequest enclave r' = None)))
    [describePolicy_handler D config; assignPolicy_handler D config;
     readPolicy_handler D config; writePolicy_handler D config;
     deletePolicy_handler D config; listPolicy_handler D config].
Proof.
  repeat constructor; intros r c; apply gate; intros [r' enclave];
    logs_body.
Qed.

(** *** The method check and the route table *)

(** X13. Each of the six routes is registered under the path its descriptor
    reports, the six paths differ, every route has a timeout of 15 s, and
    the handler of a route answers a request of any method other than the
    descriptor's with [errMethodNotAllowed] and an Accept header naming
    that method, without a call on the enclave. *)
Theorem routes_match_descriptors :
  Forall2
    (λ route api,
       route.1 = apiPath api ∧
       apiTimeout api = (15 * Second)%Z ∧
       ∀ r c,
         Method r ≠ apiMethod api →
         handlerOf route.2 r c =
           {| rw := Error (setHeader (rw c) "Accept" (apiMethod api))
                      errMethodNotAllowed;
              calls := calls c |})
    (policyRoutes D config).1 (policyRoutes D config).2 ∧
  NoDup (fst <$> (policyRoutes D config).1).
Proof.
  split.
  - repeat constructor; simpl; intros r c Hm;
      unfold describePolicy_handler, assignPolicy_handler, readPolicy_handler,
        writePolicy_handler, deletePolicy_handler, listPolicy_handler,
        serveWith; unfold mbind at 1; unfold Act_bind;
      by rewrite preamble_wrong_method.
  - simpl. apply NoDup_ListNoDup.
    repeat (constructor; [simpl; intros Hin; repeat destruct Hin as [Hin|Hin];
                          discriminate || done|]).
    constructor.
Qed.

(** *** The name check *)

(** X14. In the five handlers that take a policy name, a request that passes the
    opening but whose name [validateName] rejects is answered with that
    error, and the only call on the enclave is [VerifyRequest]. *)
Theorem invalid_name_stops :
  Forall
    (λ route : string * string * HandlerFunc,
       ∀ r c path enclave err,
         passes D config route.1.1 route.1.2 r path enclave →
         validateName D (argument D (withPath r path) route.1.2) = Some err →
         route.2 r c =
           {| rw := Error (rw c) err;
              calls := calls c ++ [CVerifyRequest (withPath r path)] |})
    [(describePolicy_Method, describePolicy_APIPath,
      describePolicy_handler D config);
     (assignPolicy_Method, assignPolicy_APIPath,
      assignPolicy_handler D config);
     (readPolicy_Method, readPolicy_APIPath, readPolicy_handler D config);
     (writePolicy_Method, writePolicy_APIPath, writePolicy_handler D config);
     (deletePolicy_Method, deletePolicy_APIPath,
      deletePolicy_handler D config)].
Proof.
  repeat constructor; simpl; intros r c path enclave err (Hm & Hn & Hl & Hv) Hname;
    unfold describePolicy_handler, assignPolicy_handler, readPolicy_handler,
      writePolicy_handler, deletePolicy_handler, serveWith;
    unfold mbind at 1; unfold Act_bind;
    rewrite (preamble_pass D config _ _ _ _ _ _ Hm Hn Hl Hv); simpl;
    run_act; by rewrite Hname.
Qed.

(** *** The name a handler acts on *)

Lemma prefix_append (p s : string) : String.prefix p (String.append p s) = true.
Proof.
  induction p as [|a p IH]; simpl; [by destruct s|].
  by destruct (Ascii.ascii_dec a a).
Qed.

Lemma dropString_append (p s : string) :
  dropString (String.length p) (String.append p s) = s.
Proof. induction p as [|a p IH]; simpl; [by destruct s|done]. Qed.

(** strings.TrimPrefix removes a prefix that is there and leaves every other
    string as it is. *)
Lemma TrimPrefix_append (p s : string) : TrimPrefix (String.append p s) p = s.
Proof. unfold TrimPrefix. by rewrite prefix_append, dropString_append. Qed.

(** *** deletePolicy *)

(** X15. A DELETE request that passes the opening with the normalized path
    /v1/policy/delete/ followed by [rest], and whose name is valid, makes
    exactly one [DeletePolicy] call, for the name [TrimSpace rest]; the
    answer is 200 when that call returns nil and its error otherwise. *)
Theorem delete_policy_contract r c (rest : string) enclave :
  passes D config MethodDelete "/v1/policy/delete/" r
    (String.append "/v1/policy/delete/" rest) enclave →
  validateName D (TrimSpace D rest) = None →
  deletePolicy_handler D config r c =
    {| rw := match DeletePolicy enclave (TrimSpace D rest) with
             | Some err => Error (rw c) err
             | None => WriteHeader (rw c) 200
             end;
       calls := calls c ++
                [CVerifyRequest
                   (withPath r (String.append "/v1/policy/delete/" rest));
                 CDeletePolicy (TrimSpace D rest)] |}.
Proof.
  intros (Hm & Hn & Hl & Hv) Hname.
  unfold deletePolicy_handler, serveWith. unfold mbind at 1. unfold Act_bind.
  rewrite (preamble_pass D config _ _ _ _ _ _ Hm Hn Hl Hv). simpl.
  unfold argument. simpl. unfold deletePolicy_APIPath.
  rewrite TrimPrefix_append. run_act. rewrite Hname. simpl.
  rewrite <- app_assoc. simpl.
  by destruct (DeletePolicy enclave (TrimSpace D rest)).
Qed.

(** *** writePolicy *)

(** X16. A POST request that passes the opening and the name check: when the
    body cannot be decoded under the limit of 1 MiB the answer is the
    decoder's error and [SetPolicy] is not called; otherwise [SetPolicy] is
    called once, with the decoded allow and deny lists, the current time
    and the caller's identity as creator, and the answer is 200 when it
    returns nil and its error otherwise. *)
Theorem write_policy_contract r c path enclave :
  passes D config MethodPost "/v1/policy/write/" r path enclave →
  validateName D (argument D (withPath r path) "/v1/policy/write/") = None →
  let name := argument D (withPath r path) "/v1/policy/write/" in
  let verified := calls c ++ [CVerifyRequest (withPath r path)] in
  writePolicy_handler D config r c =
    match decodeWrite D (2 ^ 20) (Body r) with
    | Fail err => {| rw := Error (rw c) err; calls := verified |}
    | Ok (allow, deny) =>
        let policy :=
          {| Allow := allow; Deny := deny; CreatedAt := now D;
             CreatedBy := Identify r |} in
        {| rw := match SetPolicy enclave name policy with
                 | Some err => Error (rw c) err
                 | None => WriteHeader (rw c) 200
                 end;
           calls := verified ++ [CSetPolicy name policy] |}
    end.
Proof.
  intros (Hm & Hn & Hl & Hv) Hname. simpl.
  unfold writePolicy_handler, serveWith. unfold mbind at 1. unfold Act_bind.
  rewrite (preamble_pass D config _ _ _ _ _ _ Hm Hn Hl Hv). simpl.
  run_act. unfold writePolicy_APIPath. rewrite Hname. simpl.
  change writePolicy_MaxBody with (2 ^ 20)%Z.
  destruct (decodeWrite D (2 ^ 20) (Body r)) as [[allow deny]|e]; simpl;
    [|done].
  unfold Identify. simpl.
  by destruct (SetPolicy enclave _ _).
Qed.

(** *** describePolicy and readPolicy *)

(** X17. A GET request that passes the opening and the name check makes one
    [GetPolicy] call. When it fails the answer is its error; otherwise the
    describe handler encodes the creation time and the creator of the
    policy and nothing else, and the read handler encodes these together
    with the allow and deny lists. *)
Theorem describe_and_read_contract r c path enclave :
  (passes D config MethodGet "/v1/policy/describe/" r path enclave →
   validateName D (argument D (withPath r path) "/v1/policy/describe/")
     = None →
   let name := argument D (withPath r path) "/v1/policy/describe/" in
   describePolicy_handler D config r c =
     {| rw := match GetPolicy enclave name with
              | Fail err => Error (rw c) err
              | Ok policy =>
                  (write (setHeader (rw c) "Content-Type" "application/json")
                     (DescribeBody (CreatedAt policy) (CreatedBy policy))).1
              end;
        calls := calls c ++
                 [CVerifyRequest (withPath r path); CGetPolicy name] |}) ∧
  (passes D config MethodGet "/v1/policy/read/" r path enclave →
   validateName D (argument D (withPath r path) "/v1/policy/read/") = None →
   let name := argument D (withPath r path) "/v1/policy/read/" in
   readPolicy_handler D config r c =
     {| rw := match GetPolicy enclave name with
              | Fail err => Error (rw c) err
              | Ok policy =>
                  (write (setHeader (rw c) "Content-Type" "application/json")
                     (ReadBody (Allow policy) (Deny policy)
                        (CreatedAt policy) (CreatedBy policy))).1
              end;
        calls := calls c ++
                 [CVerifyRequest (withPath r path); CGetPolicy name] |}).
Proof.
  split; intros (Hm & Hn & Hl & Hv) Hname; simpl;
    unfold describePolicy_handler, readPolicy_handler, serveWith;
    unfold mbind at 1; unfold Act_bind;
    rewrite (preamble_pass D config _ _ _ _ _ _ Hm Hn Hl Hv); simpl;
    run_act;
    unfold describePolicy_APIPath, readPolicy_APIPath; rewrite Hname; simpl;
    rewrite <- app_assoc; simpl;
    (destruct (GetPolicy enclave _) as [policy|e]; simpl; [|done]);
    by destruct (write _ _).
Qed.

(** *** Writes *)

Lemma write_ok w (ch : Chunk) w1 :
  write w ch = (w1, None) →
  writesLeft w1 = pred <$> writesLeft w ∧
  writesLeft w ≠ Some O ∧
  header w1 = header w ∧
  status w1 = Some (default StatusOK (status w)) ∧
  body w1 = body w ++ [ch].
Proof.
  unfold write. destruct (writesLeft w) as [[|n]|] eqn:E; [done| |];
    intros [= <-]; simpl; unfold WriteHeader;
    destruct (status w) eqn:Es; simpl; by rewrite ?Es.
Qed.

Lemma write_failed w (ch : Chunk) w1 e : write w ch = (w1, Some e) → w1 = w.
Proof.
  unfold write. by destruct (writesLeft w) as [[|n]|]; intros [= <-].
Qed.

Lemma write_stays_up w (ch : Chunk) :
  writesLeft w = None → ∃ w1, write w ch = (w1, None).
Proof. intros Hup. unfold write. rewrite Hup. eauto. Qed.

(** *** listPolicy: what is fetched *)

(** The loop fetches the metadata of a leading part of the matching names,
    in their order, and nothing else; on a connection that accepts [n] more
    writes it fetches at most [n + 1] of them. *)
Lemma loop_fetches enclave (pattern : string) (names : list string)
    (hasWritten : bool) c c1 (o : option bool) :
  listPolicy_loop D enclave pattern names hasWritten c = (c1, o) →
  ∃ fetched,
    calls c1 = calls c ++ (CGetPolicy <$> fetched) ∧
    fetched `prefix_of` List.filter (pathMatch D pattern) names ∧
    (∀ n, writesLeft (rw c) = Some n → (length fetched ≤ S n)%nat).
Proof.
  revert hasWritten c.
  induction names as [|name names IH]; intros hw c; simpl.
  - intros [= <- _]. exists []. rewrite app_nil_r.
    split; [done|]. split; [apply prefix_nil|]. simpl. lia.
  - destruct (pathMatch D pattern name) eqn:Hmatch; simpl; [|apply IH].
    run_act. destruct (GetPolicy enclave name) as [policy|e]; simpl.
    + destruct (write (rw c) (policyEntry name policy)) as [w1 [e1|]] eqn:Hw;
        simpl.
      * intros [= <- _]. exists [name]. simpl. split; [done|].
        split; [apply prefix_cons, prefix_nil|]. lia.
      * intros (fetched & Hc & Hp & Hlen)%IH. simpl in *.
        exists (name :: fetched). split; [by rewrite Hc, <- app_assoc|].
        split; [by apply prefix_cons|].
        intros n Hn. apply write_ok in Hw as (Hleft & Hnz & _).
        rewrite Hn in Hleft, Hnz. destruct n as [|n]; [done|].
        simpl in *. specialize (Hlen n Hleft). lia.
    + destruct (write (rw c) (errorEntry e)) as [w1 e1]. simpl.
      intros [= <- _]. exists [name]. simpl. split; [done|].
      split; [apply prefix_cons, prefix_nil|]. lia.
Qed.

(** X18. A GET request that passes the opening and the pattern check and for
    which [ListPolicies] returns an iterator: after [VerifyRequest] and
    [ListPolicies] the handler only calls [GetPolicy], and only for names
    the iterator yields that match the pattern, in the iterator's order,
    stopping at some point of that sequence. The metadata of a policy whose
    name does not match is never fetched. *)
Theorem list_fetches_matching_only r c path enclave (it : PolicyIterator) :
  passes D config MethodGet "/v1/policy/list/" r path enclave →
  validatePattern D (argument D (withPath r path) "/v1/policy/list/") = None →
  ListPolicies enclave = Ok it →
  ∃ fetched,
    calls (listPolicy_handler D config r c) =
      calls c ++ [CVerifyRequest (withPath r path); CListPolicies] ++
      (CGetPolicy <$> fetched) ∧
    fetched `prefix_of`
      List.filter
        (pathMatch D (argument D (withPath r path) "/v1/policy/list/"))
        (iterNames it).
Proof.
  intros (Hm & Hn & Hl & Hv) Hpat Hlist.
  rewrite (list_after_open D config _ c _ _ _ Hm Hn Hl Hv Hpat Hlist).
  destruct (listPolicy_loop _ _ _ _ _ _) as [c1 o] eqn:Hloop.
  apply loop_fetches in Hloop as (fetched & Hc & Hp & _). simpl in Hc.
  exists fetched. split; [|exact Hp].
  assert (calls c1 =
          calls c ++ [CVerifyRequest (withPath r path); CListPolicies] ++
          (CGetPolicy <$> fetched)) as Hc'.
  { rewrite Hc, <- !app_assoc. done. }
  destruct o as [hw|]; [|done].
  destruct (iterClose it); [done|]. by destruct hw.
Qed.

(** X19. On a connection that accepts [n] more writes, the same handler fetches
    the metadata of at most [n + 1] policies: it stops at the first write
    that fails. *)
Theorem list_stops_when_writes_fail r c path enclave (it : PolicyIterator)
    (n : nat) :
  passes D config MethodGet "/v1/policy/list/" r path enclave →
  validatePattern D (argument D (withPath r path) "/v1/policy/list/") = None →
  ListPolicies enclave = Ok it →
  writesLeft (rw c) = Some n →
  ∃ fetched,
    calls (listPolicy_handler D config r c) =
      calls c ++ [CVerifyRequest (withPath r path); CListPolicies] ++
      (CGetPolicy <$> fetched) ∧
    (length fetched ≤ S n)%nat.
Proof.
  intros (Hm & Hn & Hl & Hv) Hpat Hlist Hleft.
  rewrite (list_after_open D config _ c _ _ _ Hm Hn Hl Hv Hpat Hlist).
  destruct (listPolicy_loop _ _ _ _ _ _) as [c1 o] eqn:Hloop.
  apply loop_fetches in Hloop as (fetched & Hc & _ & Hlen). simpl in Hc.
  exists fetched. split; [|by apply Hlen].
  assert (calls c1 =
          calls c ++ [CVerifyRequest (withPath r path); CListPolicies] ++
          (CGetPolicy <$> fetched)) as Hc'.
  { rewrite Hc, <- !app_assoc. done. }
  destruct o as [hw|]; [|done].
  destruct (iterClose it); [done|]. by destruct hw.
Qed.

(** *** listPolicy: status and content type *)

Lemma loop_status enclave (pattern : string) (names : list string)
    (hasWritten : bool) c c1 (o : option bool) :
  writesLeft (rw c) = None →
  listPolicy_loop D enclave pattern names hasWritten c = (c1, o) →
  writesLeft (rw c1) = None ∧
  header (rw c1) = header (rw c) ∧
  ((o = Some hasWritten ∧ status (rw c1) = status (rw c)) ∨
   (o ≠ Some false ∧
    status (rw c1) = Some (default StatusOK (status (rw c))))).
Proof.
  revert hasWritten c.
  induction names as [|name names IH]; intros hw c Hup; simpl.
  - intros [= <- <-]. split; [done|]. split; [done|]. by left.
  - destruct (pathMatch D pattern name) eqn:Hmatch; simpl; [|by apply IH].
    run_act. destruct (GetPolicy enclave name) as [policy|e]; simpl.
    + destruct (write_stays_up (rw c) (policyEntry name policy) Hup)
        as [w1 Hw].
      rewrite Hw. simpl.
      apply write_ok in Hw as (Hleft & _ & Hhead & Hstat & _).
      rewrite Hup in Hleft. simpl in Hleft.
      intros Hloop. apply IH in Hloop as (Hup1 & Hh1 & Hs1); [|done].
      simpl in *. split; [done|]. split; [congruence|]. right.
      destruct Hs1 as [[-> Hs1]|[Ho Hs1]].
      * split; [done|]. congruence.
      * split; [done|]. rewrite Hs1, Hstat. done.
    + destruct (write_stays_up (rw c) (errorEntry e) Hup) as [w1 Hw].
      rewrite Hw. simpl.
      apply write_ok in Hw as (Hleft & _ & Hhead & Hstat & _).
      rewrite Hup in Hleft. simpl in Hleft.
      intros [= <- <-]. simpl. split; [done|]. split; [done|]. by right.
Qed.

(** X20. A listing that reaches the loop on a fresh connection that stays up is
    always answered with status 200 and content type application/x-ndjson:
    a policy that cannot be fetched and an iterator that cannot be closed
    are reported inside the body, not by the status. *)
Theorem list_errors_are_in_band r c path enclave (it : PolicyIterator) :
  passes D config MethodGet "/v1/policy/list/" r path enclave →
  validatePattern D (argument D (withPath r path) "/v1/policy/list/") = None →
  ListPolicies enclave = Ok it →
  writesLeft (rw c) = None →
  status (rw c) = None →
  status (rw (listPolicy_handler D config r c)) = Some 200%Z ∧
  headerValue "Content-Type" (header (rw (listPolicy_handler D config r c)))
    = Some "application/x-ndjson".
Proof.
  intros (Hm & Hn & Hl & Hv) Hpat Hlist Hup Hfresh.
  rewrite (list_after_open D config _ c _ _ _ Hm Hn Hl Hv Hpat Hlist).
  destruct (listPolicy_loop _ _ _ _ _ _) as [c1 o] eqn:Hloop.
  apply loop_status in Hloop as (Hup1 & Hh1 & Hs1); [|done].
  simpl in Hh1, Hs1. rewrite Hfresh in Hs1. simpl in Hs1.
  assert (headerValue "Content-Type" (header (rw c1))
          = Some "application/x-ndjson") as Hct by (by rewrite Hh1).
  destruct o as [hw|].
  - destruct (iterClose it) as [e|].
    + destruct (write_stays_up (rw c1) (errorEntry e) Hup1) as [w1 Hw].
      rewrite Hw. simpl.
      apply write_ok in Hw as (_ & _ & Hhead & Hstat & _).
      rewrite Hhead, Hstat. split; [|done].
      by destruct Hs1 as [[_ ->]|[_ ->]].
    + destruct Hs1 as [[[= ->] Hs1]|[Ho Hs1]]; simpl.
      * unfold WriteHeader. rewrite Hs1. simpl. by rewrite Hh1.
      * destruct hw; [|done]. simpl. by rewrite Hs1.
  - destruct Hs1 as [[? _]|[_ Hs1]]; [done|]. by rewrite Hs1.
Qed.

End WithDeps.

(** *** The handlers on the small deployment *)

Import Fixture.

(** X15, on a concrete input. *)
Lemma delete_policy_contract_witness :
  passes deps config MethodDelete "/v1/policy/delete/" deleteOps
    (String.append "/v1/policy/delete/" "ops") enclave ∧
  validateName deps (TrimSpace deps "ops") = None ∧
  deletePolicy_handler deps config deleteOps newConn =
    {| rw := WriteHeader newResponseWriter 200;
       calls := [CVerifyRequest deleteOps; CDeletePolicy "ops"] |}.
Proof.
  assert (passes deps config MethodDelete "/v1/policy/delete/" deleteOps
            (String.append "/v1/policy/delete/" "ops") enclave) as Hpass
    by (repeat split).
  split; [exact Hpass|]. split; [reflexivity|].
  exact (delete_policy_contract deps config deleteOps newConn "ops" enclave
           Hpass eq_refl).
Defined.

(** X16, on a concrete input. *)
Lemma write_policy_contract_witness :
  passes deps config MethodPost "/v1/policy/write/" writeOps
    "/v1/policy/write/ops" enclave ∧
  validateName deps
    (argument deps (withPath writeOps "/v1/policy/write/ops")
       "/v1/policy/write/") = None ∧
  writePolicy_handler deps config writeOps newConn =
    {| rw := WriteHeader newResponseWriter 200;
       calls := [CVerifyRequest writeOps;
                 CSetPolicy "ops" (mkPolicy [] [] 1650000000 "root")] |}.
Proof.
  assert (passes deps config MethodPost "/v1/policy/write/" writeOps
            "/v1/policy/write/ops" enclave) as Hpass by (repeat split).
  split; [exact Hpass|]. split; [reflexivity|].
  exact (write_policy_contract deps config writeOps newConn
           "/v1/policy/write/ops" enclave Hpass eq_refl).
Defined.

(** X17, on a concrete input. *)
Lemma describe_and_read_contract_witness :
  body (rw (describePolicy_handler deps config describeOps newConn)) =
    [DescribeBody 11 "root"] ∧
  body (rw (readPolicy_handler deps config readOps newConn)) =
    [ReadBody [] [] 11 "root"].
Proof.
  split.
  - destruct (describe_and_read_contract deps config describeOps newConn
                "/v1/policy/describe/ops" enclave) as [Hd _].
    rewrite Hd; [reflexivity|repeat split|reflexivity].
  - destruct (describe_and_read_contract deps config readOps newConn
                "/v1/policy/read/ops" enclave) as [_ Hr].
    rewrite Hr; [reflexivity|repeat split|reflexivity].
Defined.

(** X18, on a concrete input. *)
Lemma list_fetches_matching_only_witness :
  passes deps brokenConfig MethodGet "/v1/policy/list/" listAll
    "/v1/policy/list/*" brokenEnclave ∧
  ∃ fetched,
    calls (listPolicy_handler deps brokenConfig listAll newConn) =
      [CVerifyRequest listAll; CListPolicies] ++ (CGetPolicy <$> fetched) ∧
    fetched `prefix_of` ["ops"; "gone"; "dev"].
Proof.
  assert (passes deps brokenConfig MethodGet "/v1/policy/list/" listAll
            "/v1/policy/list/*" brokenEnclave) as Hpass by (repeat split).
  split; [exact Hpass|].
  exact (list_fetches_matching_only deps brokenConfig listAll newConn
           "/v1/policy/list/*" brokenEnclave
           (mkPolicyIterator ["ops"; "gone"; "dev"] None)
           Hpass eq_refl eq_refl).
Defined.

(** X19, on a concrete input. *)
Lemma list_stops_when_writes_fail_witness :
  passes deps brokenConfig MethodGet "/v1/policy/list/" listAll
    "/v1/policy/list/*" brokenEnclave ∧
  writesLeft (rw lastWrite) = Some 1%nat ∧
  ∃ fetched,
    calls (listPolicy_handler deps brokenConfig listAll lastWrite) =
      [CVerifyRequest listAll; CListPolicies] ++ (CGetPolicy <$> fetched) ∧
    (length fetched ≤ 2)%nat.
Proof.
  assert (passes deps brokenConfig MethodGet "/v1/policy/list/" listAll
            "/v1/policy/list/*" brokenEnclave) as Hpass by (repeat split).
  split; [exact Hpass|]. split; [reflexivity|].
  exact (list_stops_when_writes_fail deps brokenConfig listAll lastWrite
           "/v1/policy/list/*" brokenEnclave
           (mkPolicyIterator ["ops"; "gone"; "dev"] None) 1
           Hpass eq_refl eq_refl eq_refl).
Defined.

(** X20, on a concrete input. *)
Lemma list_errors_are_in_band_witness :
  passes deps brokenConfig MethodGet "/v1/policy/list/" listAll
    "/v1/policy/list/*" brokenEnclave ∧
  status (rw (listPolicy_handler deps brokenConfig listAll newConn))
    = Some 200%Z ∧
  headerValue "Content-Type"
    (header (rw (listPolicy_handler deps brokenConfig listAll newConn)))
    = Some "application/x-ndjson".
Proof.
  assert (passes deps brokenConfig MethodGet "/v1/policy/list/" listAll
            "/v1/policy/list/*" brokenEnclave) as Hpass by (repeat split).
  split; [exact Hpass|].
  exact (list_errors_are_in_band deps brokenConfig listAll newConn
           "/v1/policy/list/*" brokenEnclave
           (mkPolicyIterator ["ops"; "gone"; "dev"] None)
           Hpass eq_refl eq_refl eq_refl eq_refl).
Defined.

End PolicyAPIProps.
